(** * photinia: a shallow embedding of [ops.py] and [utils/utils.py]

    The development follows the two Python modules of the repository:

    - [photinia/ops.py]: [kl_normal], [clip_gradient], [setup],
      [transpose_sequence], [setup_sequence];
    - [photinia/utils/utils.py]: [one_hot].

    Python objects are represented by the inductive type [value], exceptions
    by [exn], and a Python call that either returns or raises by the type
    [outcome].  Tensors are dense arrays: a shape and the elements in
    row-major order. *)

From Stdlib Require Import String Bool Arith List ZArith Lia Reals Lra.
From Stdlib Require Import Permutation FinFun.
Import ListNotations.

Set Implicit Arguments.
Set Warnings "-register-all".

(** ** Outcomes of Python calls *)

Module Outcome.

(** A call returns a value or raises an exception of type [X]. *)
Inductive outcome (X A : Type) : Type :=
| Returns (a : A)
| Raises (e : X).

Arguments Returns {X A} a.
Arguments Raises {X A} e.

Definition bind {X A B} (m : outcome X A) (k : A -> outcome X B) : outcome X B :=
  match m with
  | Returns a => k a
  | Raises e => Raises e
  end.

(** [f] on each element from left to right, stopping at the first
    exception. *)
Fixpoint mapM {X A B} (f : A -> outcome X B) (l : list A) : outcome X (list B) :=
  match l with
  | [] => Returns []
  | a :: rest =>
      match f a with
      | Returns b =>
          match mapM f rest with
          | Returns bs => Returns (b :: bs)
          | Raises e => Raises e
          end
      | Raises e => Raises e
      end
  end.

End Outcome.

Import Outcome.

Declare Scope outcome_scope.
Delimit Scope outcome_scope with outcome.
Notation "x <- m ;; k" := (bind m (fun x => k))
  (at level 61, m at next level, right associativity) : outcome_scope.
Open Scope outcome_scope.

(** ** Tensors *)

Module Tensor.

(** A dense tensor: its static shape and its elements in row-major
    order. *)
Record tensor (E : Type) : Type := mkTensor {
  shape : list nat;
  data : list E
}.

Arguments mkTensor {E} shape data.

Definition numel (s : list nat) : nat := fold_right Nat.mul 1 s.

Definition rank {E} (t : tensor E) : nat := length (shape t).

(** A tensor is well formed when it has as many elements as its shape
    says. *)
Definition wf {E} (t : tensor E) : Prop := length (data t) = numel (shape t).

(** All the multi-indices of a tensor of shape [s], in row-major order. *)
Fixpoint all_indices (s : list nat) : list (list nat) :=
  match s with
  | [] => [[]]
  | n :: s' => flat_map (fun i => map (cons i) (all_indices s')) (seq 0 n)
  end.

(** The row-major position of the element at multi-index [idx]. *)
Fixpoint offset (s idx : list nat) : nat :=
  match s, idx with
  | _ :: s', i :: idx' => i * numel s' + offset s' idx'
  | _, _ => 0
  end.

(** A multi-index within the bounds of shape [s]. *)
Fixpoint in_bounds (s idx : list nat) : Prop :=
  match s, idx with
  | [], [] => True
  | n :: s', i :: idx' => i < n /\ in_bounds s' idx'
  | _, _ => False
  end.

(** The element at a multi-index, [d] when there is none. *)
Definition at_index {E} (d : E) (t : tensor E) (idx : list nat) : E :=
  nth (offset (shape t) idx) (data t) d.

Definition shape_eqb (s1 s2 : list nat) : bool :=
  if list_eq_dec Nat.eq_dec s1 s2 then true else false.

(** The exchange of the axes 0 and [k]: every other axis stays in place. *)
Definition swap_axis (k i : nat) : nat :=
  if i =? 0 then k else if i =? k then 0 else i.

(** A list (a shape, a multi-index) with its entries 0 and [k]
    exchanged. *)
Definition swap_axes {A} (d : A) (k : nat) (l : list A) : list A :=
  map (fun i => nth (swap_axis k i) l d) (seq 0 (length l)).

(** The permutation of [0 .. n-1] that exchanges 0 and [k]. *)
Definition swap_perm (n k : nat) : list Z :=
  map (fun i => Z.of_nat (swap_axis k i)) (seq 0 n).

End Tensor.

Import Tensor.

(** ** Python values and exceptions *)

Section Python.

(** The element type of tensors (the framework's [config.D_TYPE]). *)
Variable E : Type.

(** The Python objects the two modules handle.  [VFn] is any callable
    object (a function, a lambda, a Widget), named by a string; [VInt] is a
    genuine [int] (not a [bool]). *)
Inductive value : Type :=
| VNone
| VInt (n : Z)
| VStr (s : string)
| VFn (name : string)
| VTensor (t : tensor E)
| VTuple (items : list value)
| VList (items : list value).

(** Exceptions.  [NotCallable w] is the [ValueError] of [ops.py] line 121,
    [BadIndex] the [ValueError] of [utils.py] line 32; the others are raised
    by the interpreter, by a called object, or by the framework. *)
Inductive exn : Type :=
| NotCallable (w : value)
| BadIndex
| TypeError (callee : value)
| IndexError
| CalleeRaised (name : string) (what : string)
| FrameworkError (what : string).

Definition result := outcome exn value.

(** The behaviour of the callable objects: what the object named [name]
    does when called on [args]; it returns a value or raises [what]. *)
Variable call : string -> list value -> value + string.

(** Python's [callable(w)]. *)
Definition callable (w : value) : bool :=
  match w with
  | VFn _ => true
  | _ => false
  end.

(** Python's [isinstance(w, (list, tuple))]. *)
Definition is_list_or_tuple (w : value) : bool :=
  match w with
  | VTuple _ | VList _ => true
  | _ => false
  end.

Definition is_none (w : value) : bool :=
  match w with
  | VNone => true
  | _ => false
  end.

(** The items of a list or tuple (iteration order). *)
Definition items_of (w : value) : list value :=
  match w with
  | VTuple l | VList l => l
  | _ => []
  end.

(** The call expression [fn(a1, ..., ak)]: calling an object that is not
    callable raises [TypeError]. *)
Definition py_call (fn : value) (args : list value) : result :=
  match fn with
  | VFn name =>
      match call name args with
      | inl v => Returns v
      | inr what => Raises (CalleeRaised name what)
      end
  | _ => Raises (TypeError fn)
  end.

(** *** [ops.setup] *)

(** One iteration of the [for w in widget_list] loop of [setup], from the
    running value [y] (ops.py lines 107-121). *)
Definition setup_step (y w : value) : result :=
  if callable w then
    py_call w [y]
  else if is_list_or_tuple w then
    match items_of w with
    | fn :: args => py_call fn (y :: args)
    | [] => Returns y
    end
  else if is_none w then
    Returns y
  else
    Raises (NotCallable w).

(** The loop itself. *)
Fixpoint setup_loop (y : value) (ws : list value) : result :=
  match ws with
  | [] => Returns y
  | w :: rest => y' <- setup_step y w ;; setup_loop y' rest
  end.

(** The first statement of [setup] (ops.py lines 103-104): a
    [widget_list] that is neither a list nor a tuple becomes the list that
    holds it. *)
Definition as_widget_list (widget_list : value) : list value :=
  if negb (is_list_or_tuple widget_list) then [widget_list]
  else items_of widget_list.

(** [setup(x, widget_list)] (ops.py lines 95-122). *)
Definition setup (x widget_list : value) : result :=
  setup_loop x (as_widget_list widget_list).

(** *** The specification's reading of [setup]

    The widgets as the specification lists them: a callable, a tuple or
    list of a function and its extra arguments, and the entries that are
    skipped. *)
Inductive widget : Type :=
| Transform (f : string)
| TransformWith (fn : value) (args : list value)
| Skip.

Definition classify (w : value) : option widget :=
  match w with
  | VFn f => Some (Transform f)
  | VTuple (fn :: args) | VList (fn :: args) => Some (TransformWith fn args)
  | VTuple [] => Some Skip
  | VNone => Some Skip
  | _ => None
  end.

(** What a widget does to the running value. *)
Definition apply_widget (y : value) (w : widget) : result :=
  match w with
  | Transform f => py_call (VFn f) [y]
  | TransformWith fn args => py_call fn (y :: args)
  | Skip => Returns y
  end.

(** The left-to-right fold of the widgets over the initial value. *)
Definition fold_widgets (x : value) (ws : list widget) : result :=
  fold_left (fun acc w => y <- acc ;; apply_widget y w) ws (Returns x).

(** The entries [setup] accepts: callables, tuples and lists, [None]. *)
Definition accepted (w : value) : bool :=
  callable w || is_list_or_tuple w || is_none w.

(** The exceptions that leave a call expression: the [TypeError] of
    calling an object that is not callable, or what the callee raises. *)
Definition from_call (e : exn) : Prop :=
  (exists fn, e = TypeError fn) \/ (exists name what, e = CalleeRaised name what).

(** *** Framework primitives

    The functions of the tensor framework that [ops.py] calls are not part
    of the repository; they are given here by their documented meaning on
    dense tensors. *)

(** The zero of the element type. *)
Variable zero : E.

Definition tresult := outcome exn (tensor E).

(** [tf.zeros(shape)]. *)
Definition tf_zeros (s : list nat) : tensor E :=
  mkTensor s (repeat zero (numel s)).

(** [perm] is a permutation of [0 .. n-1]. *)
Definition valid_perm (n : nat) (perm : list Z) : bool :=
  (length perm =? n)
  && forallb (fun m => existsb (Z.eqb (Z.of_nat m)) perm) (seq 0 n).

(** The position of axis [m] in [perm]. *)
Fixpoint find_pos (m : nat) (perm : list Z) : nat :=
  match perm with
  | [] => 0
  | p :: rest => if (p =? Z.of_nat m)%Z then 0 else S (find_pos m rest)
  end.

(** The index into the input that the output index [oidx] reads: axis
    [perm[k]] of the input is axis [k] of the output. *)
Definition source_index (perm : list Z) (oidx : list nat) : list nat :=
  map (fun m => nth (find_pos m perm) oidx 0) (seq 0 (length perm)).

(** [tf.transpose(a, perm)]. *)
Definition tf_transpose (a : tensor E) (perm : list Z) : tresult :=
  if valid_perm (rank a) perm then
    let s := map (fun p => nth (Z.to_nat p) (shape a) 0) perm in
    Returns (mkTensor s
               (map (fun oidx => at_index zero a (source_index perm oidx))
                    (all_indices s)))
  else Raises (FrameworkError "transpose: perm is not a permutation").

(** The slices of a tensor along its leading axis. *)
Definition slices (t : tensor E) : list (tensor E) :=
  match shape t with
  | [] => []
  | n :: s =>
      map (fun i => mkTensor s (firstn (numel s)
                                  (skipn (i * numel s) (data t))))
          (seq 0 n)
  end.

(** [tf.unstack(t)]: the slices along axis 0; a scalar has none. *)
Definition unstack (t : tensor E) : outcome exn (list (tensor E)) :=
  match shape t with
  | [] => Raises (FrameworkError "cannot unstack a scalar")
  | _ :: _ => Returns (slices t)
  end.

(** The elements of the stack of [vs], each of which has to be a tensor
    of shape [s]. *)
Fixpoint stack_data (s : list nat) (vs : list value) : outcome exn (list E) :=
  match vs with
  | [] => Returns []
  | VTensor t :: rest =>
      if shape_eqb (shape t) s then
        d <- stack_data s rest ;; Returns (data t ++ d)
      else Raises (FrameworkError "stack: shapes differ")
  | _ :: _ => Raises (FrameworkError "stack: not a tensor")
  end.

(** [tf.stack] of values of shape [s] along a new leading axis. *)
Definition tf_stack (s : list nat) (vs : list value) : tresult :=
  d <- stack_data s vs ;; Returns (mkTensor (length vs :: s) d).

(** The loop of [tf.scan]: the accumulator after each element. *)
Fixpoint scan_loop (fn : value -> value -> result) (acc : value)
         (elems : list value) : outcome exn (list value) :=
  match elems with
  | [] => Returns []
  | e :: rest =>
      a <- fn acc e ;;
      outs <- scan_loop fn a rest ;;
      Returns (a :: outs)
  end.

(** [tf.scan(fn, elems, initializer)]: [fn] is applied to the slices of
    [elems] along axis 0 from left to right, the accumulator starting at
    [initializer]; the accumulators are stacked.  They have the shape of
    the initializer. *)
Definition tf_scan (fn : value -> value -> result) (elems : tensor E)
           (initializer : value) : tresult :=
  match initializer with
  | VTensor t0 =>
      slices <- unstack elems ;;
      outs <- scan_loop fn initializer (map VTensor slices) ;;
      tf_stack (shape t0) outs
  | _ => Raises (FrameworkError "scan: initializer is not a tensor")
  end.

(** The loop of [tf.map_fn]. *)
Fixpoint map_loop (fn : value -> result) (elems : list value)
  : outcome exn (list value) :=
  match elems with
  | [] => Returns []
  | e :: rest =>
      b <- fn e ;;
      outs <- map_loop fn rest ;;
      Returns (b :: outs)
  end.

(** [tf.map_fn(fn, elems)]: [fn] is applied to each slice of [elems]
    along axis 0 and the results, tensors of one shape, are stacked. *)
Definition tf_map_fn (fn : value -> result) (elems : tensor E) : tresult :=
  slices <- unstack elems ;;
  outs <- map_loop fn (map VTensor slices) ;;
  match outs with
  | VTensor t0 :: _ => tf_stack (shape t0) outs
  | _ => Raises (FrameworkError "map_fn: no tensor to stack")
  end.

(** *** Python lists *)

(** The position that index [i] denotes in a list of length [len]:
    negative indices count from the end. *)
Definition py_index (len : nat) (i : Z) : option nat :=
  if ((0 <=? i) && (i <? Z.of_nat len))%Z then Some (Z.to_nat i)
  else if ((- Z.of_nat len <=? i) && (i <? 0))%Z
       then Some (Z.to_nat (Z.of_nat len + i))
       else None.

Fixpoint list_set {A} (l : list A) (k : nat) (v : A) : list A :=
  match l, k with
  | [], _ => []
  | _ :: rest, 0 => v :: rest
  | a :: rest, S k' => a :: list_set rest k' v
  end.

(** The assignment [l[i] = v]. *)
Definition py_setitem {A} (l : list A) (i : Z) (v : A) : outcome exn (list A) :=
  match py_index (length l) i with
  | Some k => Returns (list_set l k v)
  | None => Raises IndexError
  end.

(** *** [ops.transpose_sequence] *)

(** [transpose_sequence(seq, seq_axis)] (ops.py lines 125-136). *)
Definition transpose_sequence (seq : tensor E) (seq_axis : Z) : tresult :=
  let perm := map Z.of_nat (List.seq 0 (length (shape seq))) in
  perm <- py_setitem perm 0 seq_axis ;;
  perm <- py_setitem perm seq_axis 0%Z ;;
  tf_transpose seq perm.

(** *** [ops.setup_sequence] *)

(** A recurrent cell: its bound method [cell.setup] (a callable) and its
    attribute [cell.state_size]. *)
Record cell : Type := mkCell {
  cell_setup : string;
  state_size : nat
}.

(** The function that [setup_sequence] hands to [tf.scan] (ops.py line
    172): [lambda acc, elem: cell.setup(setup(elem, widget_list), acc)]. *)
Definition scan_fn (widget_list : value) (c : cell) (acc elem : value) : result :=
  e <- setup elem widget_list ;;
  py_call (VFn (cell_setup c)) [e; acc].

(** [setup_sequence(seq, widget_list, transpose_in, transpose_out, cell,
    init_state)] (ops.py lines 139-178). *)
Definition setup_sequence (seq : tensor E) (widget_list : value)
           (transpose_in transpose_out : bool)
           (cell : option cell) (init_state : option value) : tresult :=
  seq <- (if transpose_in then transpose_sequence seq 1 else Returns seq) ;;
  y <- match cell with
       | None => tf_map_fn (fun elem => setup elem widget_list) seq
       | Some cell =>
           init_state <-
             match init_state with
             | None =>
                 match nth_error (shape seq) 1 with
                 | Some batch_size =>
                     Returns (VTensor (tf_zeros [batch_size; state_size cell]))
                 | None => Raises (FrameworkError "shape: index out of range")
                 end
             | Some s => Returns s
             end ;;
           tf_scan (scan_fn widget_list cell) seq init_state
       end ;;
  if transpose_out then transpose_sequence y 1 else Returns y.

(** *** The specification's reading of the recurrent scan

    The state after the first [k] steps over the slices [xs]:
    [state_{-1} = s0] and
    [state_i = cell.setup(setup(seq_i, widget_list), state_{i-1})];
    [state_i] is [state_after (S i)]. *)
Fixpoint state_after (widget_list : value) (c : cell) (s0 : value)
         (xs : list value) (k : nat) : result :=
  match k with
  | 0 => Returns s0
  | S i =>
      prev <- state_after widget_list c s0 xs i ;;
      match nth_error xs i with
      | Some x =>
          e <- setup x widget_list ;;
          py_call (VFn (cell_setup c)) [e; prev]
      | None => Raises IndexError
      end
  end.

(** [y] is the output of the scan over the slices [xs] from the initial
    state [t0]: the stack of the states [state_0 .. state_(n-1)], one for
    each slice, each of the shape of [t0]. *)
Definition scan_output (widget_list : value) (c : cell) (t0 : tensor E)
           (xs : list value) (states : list (tensor E)) (y : tensor E) : Prop :=
  length states = length xs
  /\ (forall i, i < length xs ->
        state_after widget_list c (VTensor t0) xs (S i)
        = Returns (VTensor (nth i states t0)))
  /\ Forall (fun t => shape t = shape t0) states
  /\ y = mkTensor (length xs :: shape t0) (concat (map (@data E) states)).

(** *** [utils.one_hot] *)

(** Python's [isinstance(index, int)]. *)
Definition is_int (w : value) : bool :=
  match w with
  | VInt _ => true
  | _ => false
  end.

(** [np.zeros((n,), dtype)]. *)
Definition np_zeros (n : nat) : list Z := repeat 0%Z n.

(** The row with a single 1 at index [i]: the write [row[i] = 1] into a
    row of [n] zeros.  An entry of an index list that is not an [int] is
    rejected by the array library. *)
Definition one_hot_row (n : nat) (i : value) : outcome exn (list Z) :=
  match i with
  | VInt k => py_setitem (np_zeros n) k 1%Z
  | _ => Raises (FrameworkError "index is not an integer")
  end.

(** [one_hot(index, dims)] (utils.py lines 15-33); the result is the
    array as a dense tensor. *)
Definition one_hot (index : value) (dims : Z) : outcome exn (tensor Z) :=
  match index with
  | VInt i =>
      if (dims <? 0)%Z then Raises (FrameworkError "negative dimensions")
      else
        ret <- py_setitem (np_zeros (Z.to_nat dims)) i 1%Z ;;
        Returns (mkTensor [Z.to_nat dims] ret)
  | VTuple l | VList l =>
      if (dims <? 0)%Z then Raises (FrameworkError "negative dimensions")
      else
        let seq_len := length l in
        rows <- mapM (one_hot_row (Z.to_nat dims)) l ;;
        Returns (mkTensor [seq_len; Z.to_nat dims] (concat rows))
  | _ => Raises BadIndex
  end.

End Python.

Arguments VNone {E}.
Arguments VInt {E} n.
Arguments VStr {E} s.
Arguments VFn {E} name.
Arguments BadIndex {E}.
Arguments IndexError {E}.
Arguments CalleeRaised {E} name what.
Arguments FrameworkError {E} what.
Arguments Transform {E} f.
Arguments Skip {E}.

(** ** Numerical helpers of [ops.py]

    The scalar arithmetic of the framework is taken in the real numbers:
    rounding is not modelled. *)

Module Numeric.

Local Open Scope R_scope.

Definition Rsum (l : list R) : R := fold_right Rplus 0 l.

(** *** [ops.clip_gradient] *)

Section Clip.

(** The variables (parameters) that gradients are paired with. *)
Variable V : Type.

(** A gradient is a tensor, or [None] for a variable without one. *)
Definition gradient := option (tensor R).

Definition sum_squares (g : gradient) : R :=
  match g with
  | Some t => Rsum (map (fun x => x * x) (data t))
  | None => 0
  end.

(** [tf.global_norm(t_list)]: the L2 norm of all the elements of all the
    tensors. *)
Definition tf_global_norm (t_list : list gradient) : R :=
  sqrt (Rsum (map sum_squares t_list)).

Definition scale (c : R) (g : gradient) : gradient :=
  option_map (fun t => mkTensor (shape t) (map (fun x => x * c) (data t))) g.

(** [tf.clip_by_global_norm(t_list, clip_norm)]: each tensor times
    [clip_norm / max(global_norm, clip_norm)], and the global norm. *)
Definition tf_clip_by_global_norm (t_list : list gradient) (clip_norm : R)
  : list gradient * R :=
  let global_norm := tf_global_norm t_list in
  (map (scale (clip_norm / Rmax global_norm clip_norm)) t_list, global_norm).

(** [clip_gradient(pair_list, max_norm)] (ops.py lines 79-92). *)
Definition clip_gradient (pair_list : list (gradient * V)) (max_norm : R)
  : list (gradient * V) * R * R :=
  let grad_list := map fst pair_list in
  let (grad_list, raw_grad) := tf_clip_by_global_norm grad_list max_norm in
  let grad := tf_global_norm grad_list in
  let pair_list :=
    map (fun gp : gradient * (gradient * V) => (fst gp, snd (snd gp)))
        (combine grad_list pair_list) in
  (pair_list, raw_grad, grad).

End Clip.

(** *** [ops.kl_normal] *)

(** The arguments of [kl_normal]: a Python scalar or a 2-D tensor, given
    by its rows (axis 0) of features (axis 1). *)
Inductive operand : Type :=
| Scalar (r : R)
| Matrix (rows : list (list R)).

Inductive tf_error : Type :=
| ShapeMismatch
| BadAxis.

(** Broadcasting along one axis: equal lengths go pairwise, a length of 1
    is stretched. *)
Definition zip_bcast {A B} (f : A -> A -> outcome tf_error B) (la lb : list A)
  : outcome tf_error (list B) :=
  if (length la =? length lb)%nat then
    mapM (fun p => f (fst p) (snd p)) (combine la lb)
  else
    match la, lb with
    | [a], _ => mapM (f a) lb
    | _, [b] => mapM (fun a => f a b) la
    | _, _ => Raises ShapeMismatch
    end.

(** An elementwise binary operation with broadcasting. *)
Definition ew2 (f : R -> R -> R) (a b : operand) : outcome tf_error operand :=
  match a, b with
  | Scalar x, Scalar y => Returns (Scalar (f x y))
  | Scalar x, Matrix m => Returns (Matrix (map (map (f x)) m))
  | Matrix m, Scalar y => Returns (Matrix (map (map (fun x => f x y)) m))
  | Matrix m1, Matrix m2 =>
      rows <- zip_bcast (zip_bcast (fun x y => Returns (f x y))) m1 m2 ;;
      Returns (Matrix rows)
  end.

(** An elementwise unary operation. *)
Definition ew1 (f : R -> R) (a : operand) : operand :=
  match a with
  | Scalar x => Scalar (f x)
  | Matrix m => Matrix (map (map f) m)
  end.

Definition add := ew2 Rplus.
Definition sub := ew2 Rminus.
Definition div := ew2 Rdiv.
Definition square := ew1 (fun x => x ^ 2).
Definition tf_log := ew1 ln.

(** [tf.reduce_sum(x, 1)]: the sum over axis 1. *)
Definition reduce_sum_1 (x : operand) : outcome tf_error (list R) :=
  match x with
  | Scalar _ => Raises BadAxis
  | Matrix m => Returns (map Rsum m)
  end.

(** The host-level test [p == c] against a Python float: a tensor is not
    equal to a float. *)
Definition host_eq (p : operand) (c : R) : bool :=
  match p with
  | Scalar r => if Req_dec_T r c then true else false
  | Matrix _ => false
  end.

(** The constant [e = 1e-4]. *)
Definition e : R := 1 / 10000.

(** The expression of the special branch (ops.py line 71), [var0] already
    holding the epsilon. *)
Definition kl_special (mu0 var0 : operand) : outcome tf_error operand :=
  a <- add var0 (square mu0) ;;
  b <- sub a (Scalar 1) ;;
  sub b (tf_log var0).

(** The expression of the general branch (ops.py line 74), [var0] and
    [var1] already holding the epsilon. *)
Definition kl_general (mu0 var0 mu1 var1 : operand) : outcome tf_error operand :=
  q <- div var0 var1 ;;
  d <- sub mu0 mu1 ;;
  r <- div (square d) var1 ;;
  a <- add q r ;;
  b <- sub a (Scalar 1) ;;
  q' <- div var0 var1 ;;
  sub b (tf_log q').

(** The else branch of [kl_normal] (ops.py lines 73-74). *)
Definition kl_else (mu0 var0 mu1 var1 : operand) : outcome tf_error operand :=
  var1 <- add var1 (Scalar e) ;;
  kl_general mu0 var0 mu1 var1.

(** [kl_normal(mu0, var0, mu1, var1)] (ops.py lines 56-76). *)
Definition kl_normal (mu0 var0 mu1 var1 : operand) : outcome tf_error (list R) :=
  var0 <- add var0 (Scalar e) ;;
  kl <- (if host_eq mu1 0 && host_eq var1 1
         then kl_special mu0 var0
         else kl_else mu0 var0 mu1 var1) ;;
  s <- reduce_sum_1 kl ;;
  Returns (map (Rmult (1 / 2)) s).

(** Two lists combined position by position. *)
Definition map2 {A B C} (f : A -> B -> C) (la : list A) (lb : list B) : list C :=
  map (fun p => f (fst p) (snd p)) (combine la lb).

(** The closed form for a standard-normal target, per example: half the
    sum over the features of [(var0 + 1e-4) + mu0^2 - 1 - log(var0 + 1e-4)]. *)
Definition kl_closed_form (mu0 var0 : list (list R)) : list R :=
  map2 (fun vrow mrow =>
          1 / 2 * Rsum (map2 (fun v m => (v + e) + m ^ 2 - 1 - ln (v + e))
                             vrow mrow))
       var0 mu0.

(** The closed form for a scalar target [(mu1, var1)], per example: half
    the sum over the features of
    [q + (mu0 - mu1)^2 / (var1 + 1e-4) - 1 - log q] with
    [q = (var0 + 1e-4) / (var1 + 1e-4)]. *)
Definition kl_general_form (mu1 var1 : R) (mu0 var0 : list (list R)) : list R :=
  map2 (fun vrow mrow =>
          1 / 2 * Rsum (map2 (fun v m =>
                                (v + e) / (var1 + e)
                                + (m - mu1) ^ 2 / (var1 + e) - 1
                                - ln ((v + e) / (var1 + e)))
                             vrow mrow))
       var0 mu0.

(** The default arguments [mu1=0.0, var1=1.0]. *)
Definition default_mu1 : operand := Scalar 0.
Definition default_var1 : operand := Scalar 1.

End Numeric.

(** ** The other functions of [ops.py] and [utils/utils.py] *)

(** *** [ops.flatten] *)

Section Flatten.

Variable E : Type.

(** [tf.reshape(x, (rows, -1))]: the elements stay in row-major order; the
    second dimension is inferred from the number of elements, which needs
    [rows] to be non-zero and to divide it. *)
Definition tf_reshape_rows (x : tensor E) (rows : nat) : tresult E :=
  if rows =? 0 then
    Raises (FrameworkError "reshape: cannot infer the missing size")
  else if numel (shape x) mod rows =? 0 then
    Returns (mkTensor [rows; numel (shape x) / rows] (data x))
  else Raises (FrameworkError "reshape: sizes do not match").

(** [flatten(x)] (ops.py lines 181-183). *)
Definition flatten (x : tensor E) : tresult E :=
  match nth_error (shape x) 0 with
  | Some batch_size => tf_reshape_rows x batch_size
  | None => Raises (FrameworkError "shape: index out of range")
  end.

End Flatten.

(** *** [ops.lrelu], [ops.swish], [ops.random_gumbel] *)

Module Activation.

Local Open Scope R_scope.

(** An elementwise function on a tensor. *)
Definition tmap (f : R -> R) (x : tensor R) : tensor R :=
  mkTensor (shape x) (map f (data x)).

(** [lrelu(x, leak)] (ops.py lines 13-20): [tf.maximum(x, leak * x)]. *)
Definition lrelu (x : tensor R) (leak : R) : tensor R :=
  tmap (fun v => Rmax v (leak * v)) x.

(** [tf.nn.sigmoid]. *)
Definition sigmoid (v : R) : R := / (1 + exp (- v)).

(** [swish(x)] (ops.py lines 23-24): [tf.nn.sigmoid(x) * x]. *)
Definition swish (x : tensor R) : tensor R :=
  tmap (fun v => sigmoid v * v) x.

(** The transform of one uniform draw [u] (ops.py lines 51-52). *)
Definition gumbel (mu beta u : R) : R := mu + - ln (- ln u) * beta.

(** [random_gumbel(shape, mu, beta)] (ops.py lines 27-53), [u] being the
    tensor that [tf.random_uniform] draws. *)
Definition random_gumbel (u : tensor R) (mu beta : R) : tensor R :=
  tmap (gumbel mu beta) u.

(** The leaky rectifier: the identity on non-negative inputs, the slope
    [leak] on negative ones. *)
Definition leaky_relu (leak v : R) : R :=
  if Rle_dec 0 v then v else leak * v.

(** The distribution function of the Gumbel law of location [mu] and
    scale [beta]. *)
Definition gumbel_cdf (mu beta g : R) : R :=
  exp (- exp (- ((g - mu) / beta))).

End Activation.

(** *** [utils.print_progress] *)

Module Progress.

(** What a call writes to the console: the progress line, which ends in a
    carriage return, and the empty [print()]. *)
Inductive output : Type :=
| ProgressLine (msg : string) (current_loop num_loops : Z)
| Newline.

Inductive error : Type :=
| ZeroDivisionError
| OverflowError.

(** The magnitude from which a quotient no longer rounds to a finite
    double: halfway between the largest double and [2^1024]. *)
Definition float_limit : Z := 2 ^ 1024 - 2 ^ 970.

(** The exceptions of the true division [a / b] of two Python integers,
    whose value is the nearest double: a zero divisor first, then a
    quotient out of the range of a double. *)
Definition true_divide (a b : Z) : outcome error unit :=
  if (b =? 0)%Z then Raises ZeroDivisionError
  else if (Z.abs b * float_limit <=? Z.abs a)%Z then Raises OverflowError
  else Returns tt.

(** [print_progress(current_loop, num_loops, msg, interval)] (utils.py
    lines 36-50) on integers: the console output of the call.  The text of
    the progress line is determined by [msg] and the two counters. *)
Definition print_progress (current_loop num_loops : Z) (msg : string)
           (interval : Z) : outcome error (list output) :=
  if (interval =? 0)%Z then Raises ZeroDivisionError
  else
    line <- (if ((current_loop mod interval =? 0) || (current_loop =? num_loops))%Z
             then
               _ <- true_divide current_loop num_loops ;;
               Returns [ProgressLine msg current_loop num_loops]
             else Returns []) ;;
    Returns (line ++ (if (current_loop =? num_loops)%Z then [Newline] else [])).

(** The calls [print_progress(i, num_loops, msg, interval)] for [i] in
    [currents], one after the other: all that they write. *)
Fixpoint progress_run (currents : list Z) (num_loops : Z) (msg : string)
         (interval : Z) : outcome error (list output) :=
  match currents with
  | [] => Returns []
  | i :: rest =>
      out <- print_progress i num_loops msg interval ;;
      outs <- progress_run rest num_loops msg interval ;;
      Returns (out ++ outs)
  end.

Definition is_newline (o : output) : bool :=
  match o with
  | Newline => true
  | ProgressLine _ _ _ => false
  end.

End Progress.

(** *** Auxiliary notions for the properties of [setup] and [one_hot] *)

Section Auxiliary.

Variable E : Type.

(** The entries of a widget list that [setup] passes over: [None], the
    empty tuple and the empty list. *)
Definition is_skipped (w : value E) : bool :=
  match w with
  | VNone | VTuple [] | VList [] => true
  | _ => false
  end.

End Auxiliary.

(** The sum of the entries of an integer array. *)
Definition Zsum (l : list Z) : Z := fold_right Z.add 0%Z l.

(** ** Example objects

    Concrete callables and tensors over integer elements, on which the
    definitions can be run: [f(x) = x + 1], [g(x, k) = x * k] on integers,
    and a cell whose [setup(x, state)] adds [x] to [state] elementwise. *)

Module Example.

Definition add_lists (l1 l2 : list Z) : list Z :=
  map (fun p => (fst p + snd p)%Z) (combine l1 l2).

Definition call (name : string) (args : list (value Z)) : value Z + string :=
  if String.eqb name "f" then
    match args with
    | [VInt n] => inl (VInt (n + 1))
    | _ => inr "f: bad arguments"%string
    end
  else if String.eqb name "g" then
    match args with
    | [VInt n; VInt k] => inl (VInt (n * k))
    | _ => inr "g: bad arguments"%string
    end
  else if String.eqb name "cell.setup" then
    match args with
    | [VTensor x; VTensor s] =>
        inl (VTensor (mkTensor (shape s) (add_lists (data x) (data s))))
    | _ => inr "cell.setup: bad arguments"%string
    end
  else inr "unknown callable"%string.

Definition the_cell : cell := mkCell "cell.setup" 2.

(** A sequence of three steps, batch size 1, two features. *)
Definition seq3 : tensor Z := mkTensor [3; 1; 2] [1; 2; 3; 4; 5; 6]%Z.

(** A batch of two sequences of three steps. *)
Definition t23 : tensor Z := mkTensor [2; 3] [1; 2; 3; 4; 5; 6]%Z.

End Example.

(** * Properties *)

(** ** The outcome monad *)

Section OutcomeFacts.

Context {X A B C : Type}.

Lemma bind_assoc (m : outcome X A) (k : A -> outcome X B) (h : B -> outcome X C) :
  bind (bind m k) h = bind m (fun a => bind (k a) h).
Proof. destruct m; reflexivity. Qed.

Lemma bind_returns_inv (m : outcome X A) (k : A -> outcome X B) b :
  bind m k = Returns b -> exists a, m = Returns a /\ k a = Returns b.
Proof. destruct m; simpl; intros H; [eauto | discriminate]. Qed.

Lemma bind_raises_inv (m : outcome X A) (k : A -> outcome X B) x :
  bind m k = Raises x ->
  m = Raises x \/ exists a, m = Returns a /\ k a = Raises x.
Proof. destruct m; simpl; intros H; [eauto | left; congruence]. Qed.

End OutcomeFacts.

Lemma bind_returns_r {X A} (m : outcome X A) :
  (a <- m ;; Returns a) = m.
Proof. destruct m; reflexivity. Qed.

(** ** [setup] *)

Section SetupFacts.

Variable E : Type.
Variable call : string -> list (value E) -> value E + string.

Lemma setup_loop_app x ws1 ws2 :
  setup_loop call x (ws1 ++ ws2) = (y <- setup_loop call x ws1 ;; setup_loop call y ws2).
Proof.
  revert x; induction ws1 as [|w ws1 IH]; intros x; simpl; [reflexivity|].
  rewrite bind_assoc. destruct (setup_step call x w); simpl; auto.
Qed.

Lemma fold_widgets_raises (e : exn E) ws :
  fold_left (fun acc w => y <- acc ;; apply_widget call y w) ws (Raises e)
  = Raises e.
Proof. induction ws; simpl; auto. Qed.

Lemma fold_widgets_cons x w ws :
  fold_widgets call x (w :: ws)
  = (y <- apply_widget call x w ;; fold_widgets call y ws).
Proof.
  unfold fold_widgets; simpl.
  destruct (apply_widget call x w); simpl; [reflexivity|].
  apply fold_widgets_raises.
Qed.

Lemma setup_step_classify y w k :
  classify w = Some k -> setup_step call y w = apply_widget call y k.
Proof.
  destruct w as [| | | |t|[|fn args]|[|fn args]]; simpl; intros H;
    inversion H; subst; reflexivity.
Qed.

Lemma setup_loop_fold x ws wl :
  map (@classify E) ws = map Some wl ->
  setup_loop call x ws = fold_widgets call x wl.
Proof.
  revert x wl; induction ws as [|w ws IH]; intros x [|k wl] H;
    simpl in H; try discriminate; [reflexivity|].
  inversion H as [[Hk Hrest]].
  rewrite fold_widgets_cons. simpl.
  rewrite (setup_step_classify x _ Hk).
  destruct (apply_widget call x k); simpl; auto.
Qed.

(** C1: over a list whose entries are callables, tuples or lists of a
    function and extra arguments, empty tuples or [None], [setup] is the
    left-to-right fold of the widgets: a callable [w] turns the running
    value [y] into [w(y)], a non-empty tuple into [fn(y, a1, ..., ak)],
    [None] and the empty tuple leave it as it is.  So
    [setup(x, [f, (g, 2), None])] is [g(f(x), 2)], and a widget list that
    is neither a list nor a tuple stands for the list that holds it. *)
Theorem setup_is_fold (x : value E) :
  (forall ws wl,
      map (@classify E) ws = map Some wl ->
      setup call x (VList ws) = fold_widgets call x wl)
  /\ (forall f g,
        setup call x (VList [VFn f; VTuple [VFn g; VInt 2]; VNone])
        = (y <- py_call call (VFn f) [x] ;; py_call call (VFn g) [y; VInt 2]))
  /\ (forall w,
        is_list_or_tuple w = false -> setup call x w = setup call x (VList [w])).
Proof.
  split; [|split].
  - intros ws wl H. apply setup_loop_fold, H.
  - intros f g. cbn.
    destruct (call f [x]); cbn; [|reflexivity].
    destruct (call g _); reflexivity.
  - intros w Hw. unfold setup, as_widget_list. rewrite Hw. reflexivity.
Qed.

Lemma py_call_not_value_error fn args (w : value E) :
  py_call call fn args <> Raises (NotCallable w).
Proof.
  destruct fn; simpl; try discriminate.
  destruct (call name args); discriminate.
Qed.

(** The [ValueError] of [setup] is raised by an entry of no accepted
    shape, and names it. *)
Lemma setup_step_value_error y a (w : value E) :
  setup_step call y a = Raises (NotCallable w) ->
  a = w /\ accepted a = false.
Proof.
  unfold setup_step, accepted.
  destruct (callable a) eqn:Hc; simpl.
  - intros H. now apply py_call_not_value_error in H.
  - destruct (is_list_or_tuple a) eqn:Hl; simpl.
    + destruct (items_of a); [discriminate|].
      intros H. now apply py_call_not_value_error in H.
    + destruct (is_none a); [discriminate|].
      intros H. inversion H. auto.
Qed.

Lemma setup_step_rejected y (w : value E) :
  accepted w = false -> setup_step call y w = Raises (NotCallable w).
Proof.
  unfold setup_step, accepted. intros H.
  apply orb_false_iff in H as [H Hn]. apply orb_false_iff in H as [Hc Hl].
  now rewrite Hc, Hl, Hn.
Qed.

Lemma setup_step_returns_accepted y w (y' : value E) :
  setup_step call y w = Returns y' -> accepted w = true.
Proof.
  intros H. destruct (accepted w) eqn:Ha; [reflexivity|].
  rewrite (setup_step_rejected y _ Ha) in H. discriminate.
Qed.

Lemma setup_loop_returns_accepted ws : forall x (y : value E),
  setup_loop call x ws = Returns y -> forallb (@accepted E) ws = true.
Proof.
  induction ws as [|w ws IH]; intros x y H; simpl in *; [reflexivity|].
  apply bind_returns_inv in H as (y' & Hs & Hl).
  rewrite (setup_step_returns_accepted _ _ Hs). simpl. eauto.
Qed.

Lemma setup_loop_value_error ws : forall x (w : value E),
  setup_loop call x ws = Raises (NotCallable w) ->
  exists pre post y,
    ws = pre ++ w :: post
    /\ setup_loop call x pre = Returns y
    /\ accepted w = false.
Proof.
  induction ws as [|a ws IH]; intros x w H; simpl in H; [discriminate|].
  apply bind_raises_inv in H as [H | (y' & Hs & Hl)].
  - apply setup_step_value_error in H as [-> Ha].
    exists [], ws, x. auto.
  - destruct (IH _ _ Hl) as (pre & post & y & -> & Hpre & Ha).
    exists (a :: pre), post, y. simpl. rewrite Hs. simpl. auto.
Qed.

Lemma py_call_raises fn args e :
  py_call call fn args = Raises e -> from_call e.
Proof.
  unfold from_call.
  destruct fn; simpl; intros H; try (injection H as <-; eauto; fail).
  destruct (call name args); [discriminate|]. injection H as <-. eauto.
Qed.

Lemma setup_step_accepted_raises y w e :
  accepted w = true -> setup_step call y w = Raises e -> from_call e.
Proof.
  unfold setup_step, accepted.
  destruct (callable w); simpl; [intros _; apply py_call_raises|].
  destruct (is_list_or_tuple w); simpl.
  - intros _. destruct (items_of w); [discriminate|apply py_call_raises].
  - intros ->. discriminate.
Qed.

Lemma setup_loop_accepted_raises ws : forall x e,
  forallb (@accepted E) ws = true ->
  setup_loop call x ws = Raises e -> from_call e.
Proof.
  induction ws as [|w ws IH]; intros x e Hall H; simpl in *; [discriminate|].
  apply andb_true_iff in Hall as [Hw Hall].
  apply bind_raises_inv in H as [H | (y & _ & H)].
  - eapply setup_step_accepted_raises; eassumption.
  - eapply IH; eassumption.
Qed.

(** C8: [setup] raises its [ValueError] exactly when the fold reaches an
    entry that is neither callable, nor a tuple or list, nor [None]: the
    entries before it have all been applied and have returned, so they are
    of an accepted shape and the error names the first entry that is not;
    when every entry is of an accepted shape, [setup] does not raise
    it: the only exceptions then come out of the calls of the widgets. *)
Theorem setup_value_error (x widget_list w : value E) :
  (setup call x widget_list = Raises (NotCallable w) <->
     exists pre post y,
       as_widget_list widget_list = pre ++ w :: post
       /\ setup_loop call x pre = Returns y
       /\ accepted w = false)
  /\ (forall pre post y,
        as_widget_list widget_list = pre ++ w :: post ->
        setup_loop call x pre = Returns y ->
        forallb (@accepted E) pre = true)
  /\ (forallb (@accepted E) (as_widget_list widget_list) = true ->
      forall w', setup call x widget_list <> Raises (NotCallable w'))
  /\ (forallb (@accepted E) (as_widget_list widget_list) = true ->
      forall e, setup call x widget_list = Raises e -> from_call e).
Proof.
  unfold setup. split; [split|split; [|split]].
  - apply setup_loop_value_error.
  - intros (pre & post & y & -> & Hpre & Ha).
    rewrite setup_loop_app, Hpre. simpl.
    now rewrite (setup_step_rejected y _ Ha).
  - intros pre post y _ Hpre. eapply setup_loop_returns_accepted, Hpre.
  - intros Hall w' H.
    apply setup_loop_value_error in H as (pre & post & y & Heq & _ & Ha).
    rewrite Heq, forallb_app in Hall. simpl in Hall. rewrite Ha in Hall.
    rewrite andb_false_r in Hall. discriminate.
  - intros Hall e H. eapply setup_loop_accepted_raises; eassumption.
Qed.

(** C9: a tuple given as [widget_list] is the sequence of widgets itself;
    it is not wrapped.  So [setup(x, (f, g))] is [g(f(x))], and
    [setup(x, (f, 2))] calls [f(x)] and then raises on the entry [2]: it
    never returns, whereas the one-element list [[(f, 2)]] computes
    [f(x, 2)]. *)
Theorem setup_tuple_is_sequence (x : value E) :
  (forall t : list (value E), as_widget_list (VTuple t) = t)
  /\ (forall t, setup call x (VTuple t) = setup_loop call x t)
  /\ (forall t, setup call x (VTuple t) = setup call x (VList t))
  /\ (forall f g,
        setup call x (VTuple [VFn f; VFn g])
        = (y <- py_call call (VFn f) [x] ;; py_call call (VFn g) [y]))
  /\ (forall f,
        setup call x (VTuple [VFn f; VInt 2])
        = (y <- py_call call (VFn f) [x] ;; Raises (NotCallable (VInt 2))))
  /\ (forall f v, setup call x (VTuple [VFn f; VInt 2]) <> Returns v)
  /\ (forall f,
        setup call x (VList [VTuple [VFn f; VInt 2]])
        = py_call call (VFn f) [x; VInt 2]).
Proof.
  repeat apply conj.
  - reflexivity.
  - reflexivity.
  - reflexivity.
  - intros f g. cbn.
    destruct (call f [x]); cbn; [|reflexivity].
    destruct (call g _); reflexivity.
  - intros f. cbn. destruct (call f [x]); reflexivity.
  - intros f v. cbn. destruct (call f [x]); discriminate.
  - intros f. cbn. destruct (call f _); reflexivity.
Qed.

End SetupFacts.

(** ** Python lists *)

Section ListFacts.

Context {A : Type}.

Lemma list_set_length (l : list A) k v : length (list_set l k v) = length l.
Proof.
  revert k; induction l as [|a l IH]; intros [|k]; simpl; auto.
Qed.

Lemma nth_list_set (l : list A) j v d : forall k,
  (j < length l)%nat ->
  nth k (list_set l j v) d = if (k =? j)%nat then v else nth k l d.
Proof.
  revert j; induction l as [|a l IH]; intros [|j] k Hj; simpl in *; try lia.
  - destruct k; reflexivity.
  - destruct k; simpl; [reflexivity|]. apply IH. lia.
Qed.

Lemma py_index_negative len i :
  (- Z.of_nat len <= i < 0)%Z ->
  py_index len i = Some (Z.to_nat (Z.of_nat len + i)).
Proof.
  intros H. unfold py_index.
  replace (0 <=? i)%Z with false by (symmetry; apply Z.leb_gt; lia).
  simpl.
  replace (- Z.of_nat len <=? i)%Z with true by (symmetry; apply Z.leb_le; lia).
  replace (i <? 0)%Z with true by (symmetry; apply Z.ltb_lt; lia).
  reflexivity.
Qed.

Lemma py_index_nonnegative len i :
  (0 <= i < Z.of_nat len)%Z -> py_index len i = Some (Z.to_nat i).
Proof.
  intros H. unfold py_index.
  replace (0 <=? i)%Z with true by (symmetry; apply Z.leb_le; lia).
  replace (i <? Z.of_nat len)%Z with true by (symmetry; apply Z.ltb_lt; lia).
  reflexivity.
Qed.

Lemma py_index_outside len i :
  ~ (- Z.of_nat len <= i < Z.of_nat len)%Z -> py_index len i = None.
Proof.
  intros H. unfold py_index.
  destruct (0 <=? i)%Z eqn:H0, (i <? Z.of_nat len)%Z eqn:H1,
           (- Z.of_nat len <=? i)%Z eqn:H2, (i <? 0)%Z eqn:H3;
    simpl; try reflexivity; exfalso;
    rewrite ?Z.leb_le, ?Z.ltb_lt, ?Z.leb_gt, ?Z.ltb_ge in *; lia.
Qed.

Lemma py_index_bound len i k : py_index len i = Some k -> (k < len)%nat.
Proof.
  unfold py_index.
  destruct ((0 <=? i) && (i <? Z.of_nat len))%Z eqn:H1.
  - apply andb_true_iff in H1 as [Ha Hb].
    rewrite Z.leb_le in Ha. rewrite Z.ltb_lt in Hb.
    intros H; inversion H. lia.
  - destruct ((- Z.of_nat len <=? i) && (i <? 0))%Z eqn:H2; [|discriminate].
    apply andb_true_iff in H2 as [Ha Hb].
    rewrite Z.leb_le in Ha. rewrite Z.ltb_lt in Hb.
    intros H; inversion H. lia.
Qed.

End ListFacts.

(** ** [one_hot] *)

Section OneHotFacts.

Variable E : Type.

Lemma one_hot_row_not_bad_index n (i : value E) :
  one_hot_row n i <> Raises BadIndex.
Proof.
  destruct i; simpl; try discriminate.
  unfold py_setitem. destruct (py_index _ _); discriminate.
Qed.

Lemma one_hot_rows_not_bad_index n (l : list (value E)) :
  mapM (one_hot_row n) l <> Raises BadIndex.
Proof.
  induction l as [|i l IH]; simpl; [discriminate|].
  destruct (one_hot_row n i) eqn:Hi.
  - destruct (mapM (one_hot_row n) l); [discriminate|].
    intros H. apply IH. congruence.
  - intros H. apply (@one_hot_row_not_bad_index n i). congruence.
Qed.

(** C10: for [dims > 0] and an [int] index with [-dims <= index < 0],
    [one_hot] returns the vector of length [dims] whose single 1 is at
    position [dims + index]; an [int] index outside [[-dims, dims)] raises
    the index error of the array write; the [ValueError] of [one_hot] is
    raised exactly for an index that is neither an [int] nor a list or
    tuple. *)
Theorem one_hot_negative_index :
  (forall index dims : Z,
      (0 < dims)%Z -> (- dims <= index < 0)%Z ->
      exists ret,
        one_hot (E:=E) (VInt index) dims
        = Returns (mkTensor [Z.to_nat dims] ret)
        /\ length ret = Z.to_nat dims
        /\ forall k, (k < Z.to_nat dims)%nat ->
               nth k ret 0%Z
               = if (k =? Z.to_nat (dims + index))%nat then 1%Z else 0%Z)
  /\ (forall index dims : Z,
        (0 <= dims)%Z -> ~ (- dims <= index < dims)%Z ->
        one_hot (E:=E) (VInt index) dims = Raises IndexError)
  /\ (forall (index : value E) (dims : Z),
        one_hot index dims = Raises BadIndex <->
        is_int index = false /\ is_list_or_tuple index = false).
Proof.
  repeat apply conj.
  - intros index dims Hd Hi. unfold one_hot.
    replace (dims <? 0)%Z with false by (symmetry; apply Z.ltb_ge; lia).
    unfold py_setitem, np_zeros. rewrite repeat_length.
    rewrite py_index_negative by (rewrite Z2Nat.id; lia).
    rewrite Z2Nat.id by lia. simpl.
    eexists; split; [reflexivity|]. split.
    + now rewrite list_set_length, repeat_length.
    + intros k Hk. rewrite nth_list_set by (rewrite repeat_length; lia).
      destruct (k =? _)%nat; [reflexivity|].
      apply nth_repeat.
  - intros index dims Hd Hi. unfold one_hot.
    replace (dims <? 0)%Z with false by (symmetry; apply Z.ltb_ge; lia).
    unfold py_setitem, np_zeros. rewrite repeat_length.
    rewrite py_index_outside by (rewrite Z2Nat.id; lia).
    reflexivity.
  - intros index dims. split.
    + destruct index; simpl; auto; intros H; exfalso.
      * destruct (dims <? 0)%Z; [discriminate|].
        unfold py_setitem in H. destruct (py_index _ _); discriminate.
      * destruct (dims <? 0)%Z; [discriminate|].
        apply bind_raises_inv in H as [H | (rows & _ & H)]; [|discriminate].
        now apply one_hot_rows_not_bad_index in H.
      * destruct (dims <? 0)%Z; [discriminate|].
        apply bind_raises_inv in H as [H | (rows & _ & H)]; [|discriminate].
        now apply one_hot_rows_not_bad_index in H.
    + intros [Hi Hl]. destruct index; simpl in *; try discriminate; reflexivity.
Qed.

End OneHotFacts.

(** ** [clip_gradient] *)

Section ClipFacts.

Import Numeric.
Local Open Scope R_scope.

Variable V : Type.

Lemma repair_scaled (f : gradient -> gradient) (pair_list : list (gradient * V)) :
  map (fun gp : gradient * (gradient * V) => (fst gp, snd (snd gp)))
      (combine (map f (map fst pair_list)) pair_list)
  = map (fun p => (f (fst p), snd p)) pair_list.
Proof.
  induction pair_list as [|p l IH]; simpl; [reflexivity|].
  now rewrite IH.
Qed.

Lemma clip_gradient_pairs (pair_list : list (gradient * V)) max_norm :
  fst (fst (clip_gradient pair_list max_norm))
  = map (fun p =>
           (scale (max_norm / Rmax (tf_global_norm (map fst pair_list)) max_norm)
                  (fst p), snd p))
        pair_list.
Proof. unfold clip_gradient; simpl. apply repair_scaled. Qed.

(** C3: [clip_gradient] accepts the empty pair list, whatever [max_norm]
    is: it returns the empty pair list, and zero for the norm before and
    for the norm after clipping. *)
Theorem clip_gradient_empty (max_norm : R) :
  clip_gradient (@nil (gradient * V)) max_norm = ([], 0, 0).
Proof.
  unfold clip_gradient, tf_clip_by_global_norm, tf_global_norm; simpl.
  now rewrite sqrt_0.
Qed.

(** C7: the pair list that [clip_gradient] returns has the length and the
    order of its input, and the variable of each pair is the variable of
    the input pair at that position; the gradients alone change, all by
    one factor. *)
Theorem clip_gradient_keeps_variables
        (pair_list : list (gradient * V)) (max_norm : R) :
  let out := fst (fst (clip_gradient pair_list max_norm)) in
  length out = length pair_list
  /\ map snd out = map snd pair_list
  /\ (forall i p, nth_error pair_list i = Some p ->
              exists g, nth_error out i = Some (g, snd p))
  /\ exists c, map fst out = map (scale c) (map fst pair_list).
Proof.
  cbv zeta. rewrite clip_gradient_pairs.
  set (c := max_norm / _). repeat apply conj.
  - now rewrite length_map.
  - rewrite map_map. reflexivity.
  - intros i p Hp. exists (scale c (fst p)).
    now rewrite nth_error_map, Hp.
  - exists c. now rewrite !map_map.
Qed.

End ClipFacts.

(** ** [kl_normal] *)

Section KlFacts.

Import Numeric.
Local Open Scope R_scope.

Lemma mapM_pure {X A B} (g : A -> B) (l : list A) :
  mapM (fun a => @Returns X B (g a)) l = Returns (map g l).
Proof. induction l as [|a l IH]; simpl; [reflexivity|]. now rewrite IH. Qed.

Lemma zip_bcast_same_length {A B} (f : A -> A -> outcome tf_error B) la lb :
  length la = length lb ->
  zip_bcast f la lb = mapM (fun p => f (fst p) (snd p)) (combine la lb).
Proof. intros H. unfold zip_bcast. now rewrite H, Nat.eqb_refl. Qed.

Lemma zip_bcast_row (f : R -> R -> R) (r1 r2 : list R) :
  length r1 = length r2 ->
  zip_bcast (fun x y => Returns (f x y)) r1 r2 = Returns (map2 f r1 r2).
Proof.
  intros H. rewrite (zip_bcast_same_length _ _ _ H).
  apply (mapM_pure (fun p => f (fst p) (snd p))).
Qed.

Lemma zip_bcast_rows (f : R -> R -> R) (m1 : list (list R)) : forall m2,
  map (@length R) m1 = map (@length R) m2 ->
  mapM (fun p => zip_bcast (fun x y => Returns (f x y)) (fst p) (snd p))
       (combine m1 m2)
  = Returns (map2 (map2 f) m1 m2).
Proof.
  induction m1 as [|r1 m1 IH]; intros [|r2 m2] H; simpl in *;
    try discriminate; try reflexivity.
  inversion H as [[Hr Hm]].
  rewrite (zip_bcast_row f _ _ Hr), (IH _ Hm). reflexivity.
Qed.

Lemma ew2_same_shape (f : R -> R -> R) (m1 m2 : list (list R)) :
  map (@length R) m1 = map (@length R) m2 ->
  ew2 f (Matrix m1) (Matrix m2) = Returns (Matrix (map2 (map2 f) m1 m2)).
Proof.
  intros H. unfold ew2.
  assert (Hl : length m1 = length m2)
    by (rewrite <- (length_map (@length R) m1), H; apply length_map).
  rewrite (zip_bcast_same_length _ _ _ Hl), (zip_bcast_rows f _ _ H).
  reflexivity.
Qed.

Lemma shape_map_map (g : R -> R) (m : list (list R)) :
  map (@length R) (map (map g) m) = map (@length R) m.
Proof.
  rewrite map_map. apply map_ext. intros r. apply length_map.
Qed.

Lemma shape_map2 (f : R -> R -> R) (m1 : list (list R)) : forall m2,
  map (@length R) m1 = map (@length R) m2 ->
  map (@length R) (map2 (map2 f) m1 m2) = map (@length R) m1.
Proof.
  unfold map2.
  induction m1 as [|r1 m1 IH]; intros [|r2 m2] H; simpl in *;
    try discriminate; try reflexivity.
  inversion H as [[Hr Hm]]. f_equal; [|now apply IH].
  rewrite length_map, length_combine, Hr. apply Nat.min_id.
Qed.

Lemma host_eq_scalar r c : host_eq (Scalar r) c = true <-> r = c.
Proof.
  unfold host_eq. destruct (Req_dec_T r c); split; congruence.
Qed.

Lemma host_test_default : host_eq default_mu1 0 && host_eq default_var1 1 = true.
Proof.
  apply andb_true_iff; split; now apply host_eq_scalar.
Qed.


Lemma ln_1_plus_bounds x : 0 < x -> x / (1 + x) < ln (1 + x) < x.
Proof.
  intros Hx. split.
  - assert (H : exp (- ln (1 + x)) < exp (- (x / (1 + x)))).
    { rewrite exp_Ropp, exp_ln by lra.
      assert (Hy : - (x / (1 + x)) <> 0).
      { assert (0 < x / (1 + x)) by (apply Rdiv_lt_0_compat; lra). lra. }
      pose proof (exp_ineq1 _ Hy) as Hexp.
      replace (1 + - (x / (1 + x))) with (/ (1 + x)) in Hexp
        by (field; lra).
      exact Hexp. }
    apply exp_lt_inv in H. lra.
  - apply exp_lt_inv. rewrite exp_ln by lra.
    apply exp_ineq1. lra.
Qed.

Lemma map2_fused {A B C D F G H}
      (f : F -> G -> H) (g : D -> F) (h : C -> C -> D)
      (a : A -> C) (b : B -> C) (c : C -> G) la : forall lb,
  map2 f (map g (map2 h (map a la) (map b lb))) (map c (map a la))
  = map2 (fun x y => f (g (h (a x) (b y))) (c (a x))) la lb.
Proof.
  unfold map2.
  induction la as [|x la IH]; intros [|y lb]; simpl; try reflexivity.
  f_equal. apply IH.
Qed.

Lemma map_map2 {A B C D} (g : C -> D) (f : A -> B -> C) la lb :
  map g (map2 f la lb) = map2 (fun x y => g (f x y)) la lb.
Proof. unfold map2. now rewrite map_map. Qed.

Lemma map2_ext {A B C} (f g : A -> B -> C) la lb :
  (forall x y, f x y = g x y) -> map2 f la lb = map2 g la lb.
Proof. intros H. unfold map2. apply map_ext. intros p. apply H. Qed.

Lemma rows_closed var0 mu0 :
  map (Rmult (1 / 2))
      (map Rsum
           (map2 (map2 Rminus)
                 (map (map (fun x => x - 1))
                      (map2 (map2 Rplus) (map (map (fun x => x + e)) var0)
                            (map (map (fun x => x ^ 2)) mu0)))
                 (map (map ln) (map (map (fun x => x + e)) var0))))
  = kl_closed_form mu0 var0.
Proof.
  unfold kl_closed_form.
  rewrite map2_fused, !map_map2.
  apply map2_ext. intros vrow mrow. now rewrite map2_fused.
Qed.

Lemma map2_repeat {A B C} (f : A -> B -> C) a b n :
  map2 f (repeat a n) (repeat b n) = repeat (f a b) n.
Proof. unfold map2. induction n; simpl; [reflexivity|]. now rewrite IHn. Qed.

Lemma Rsum_repeat t n : Rsum (repeat t n) = INR n * t.
Proof.
  induction n as [|n IH]; [simpl; lra|].
  rewrite S_INR. simpl repeat. unfold Rsum in *. simpl. rewrite IH. lra.
Qed.

Lemma kl_default_expand mu0 var0 :
  kl_normal mu0 var0 default_mu1 default_var1
  = (v <- add var0 (Scalar e) ;;
     a <- add v (square mu0) ;;
     b <- sub a (Scalar 1) ;;
     kl <- sub b (tf_log v) ;;
     s <- reduce_sum_1 kl ;;
     Returns (map (Rmult (1 / 2)) s)).
Proof.
  unfold kl_normal. rewrite host_test_default. unfold kl_special.
  destruct (add var0 (Scalar e)) as [v|]; simpl; [|reflexivity].
  destruct (add v (square mu0)) as [a|]; simpl; [|reflexivity].
  destruct (sub a (Scalar 1)) as [b|]; simpl; reflexivity.
Qed.

Lemma ew2_matrix_scalar f m y :
  ew2 f (Matrix m) (Scalar y) = Returns (Matrix (map (map (fun x => f x y)) m)).
Proof. reflexivity. Qed.

Lemma kl_default_closed mu0 var0 :
  map (@length R) mu0 = map (@length R) var0 ->
  kl_normal (Matrix mu0) (Matrix var0) default_mu1 default_var1
  = Returns (kl_closed_form mu0 var0).
Proof.
  intros Hs. rewrite kl_default_expand.
  unfold add, sub, square, tf_log.
  rewrite ew2_matrix_scalar. cbn [bind ew1].
  rewrite ew2_same_shape by (now rewrite !shape_map_map).
  cbn [bind]. rewrite ew2_matrix_scalar. cbn [bind].
  rewrite ew2_same_shape.
  2:{ rewrite shape_map_map, shape_map2, !shape_map_map; auto.
      now rewrite !shape_map_map. }
  cbn [bind reduce_sum_1]. now rewrite rows_closed.
Qed.

Lemma e_bounds : 0 < e - ln (1 + e) < e * e.
Proof.
  assert (He : 0 < e) by (unfold e; lra).
  destruct (ln_1_plus_bounds He) as [Hlo Hhi].
  assert (Hq : e / (1 + e) = 1 / 10001) by (unfold e; field).
  rewrite Hq in Hlo. unfold e in *. lra.
Qed.

Lemma kl_zero_one n d :
  kl_closed_form (repeat (repeat 0 d) n) (repeat (repeat 1 d) n)
  = repeat (1 / 2 * (INR d * (1 + e + 0 ^ 2 - 1 - ln (1 + e)))) n.
Proof.
  unfold kl_closed_form. rewrite map2_repeat, map2_repeat, Rsum_repeat.
  reflexivity.
Qed.

(** C4: with the default target [mu1 = 0.0], [var1 = 1.0], [kl_normal]
    takes the special branch: the epsilon [1e-4] is added to [var0], and
    that sum is used both as the variance and under the logarithm.  For 2-D
    [mu0] and [var0] of one shape the result is, per example, half the sum
    over axis 1 of [(var0 + 1e-4) + mu0^2 - 1 - log(var0 + 1e-4)].  For
    [mu0 = 0] and [var0 = 1] every entry lies between 0 and
    [d * 1e-8 / 2] for [d] features, hence within [1e-4] of 0 for up to
    20000 features. *)
Theorem kl_normal_standard_target :
  (forall mu0 var0,
      kl_normal mu0 var0 default_mu1 default_var1
      = (v <- add var0 (Scalar e) ;;
         a <- add v (square mu0) ;;
         b <- sub a (Scalar 1) ;;
         kl <- sub b (tf_log v) ;;
         s <- reduce_sum_1 kl ;;
         Returns (map (Rmult (1 / 2)) s)))
  /\ (forall mu0 var0,
        map (@length R) mu0 = map (@length R) var0 ->
        kl_normal (Matrix mu0) (Matrix var0) default_mu1 default_var1
        = Returns (kl_closed_form mu0 var0))
  /\ (forall n d, exists r,
        kl_normal (Matrix (repeat (repeat 0 d) n))
                  (Matrix (repeat (repeat 1 d) n)) default_mu1 default_var1
        = Returns (repeat r n)
        /\ 0 <= r <= INR d * (e * e) / 2
        /\ (INR d <= 20000 -> Rabs r <= e)).
Proof.
  repeat apply conj.
  - apply kl_default_expand.
  - apply kl_default_closed.
  - intros n d.
    exists (1 / 2 * (INR d * (1 + e + 0 ^ 2 - 1 - ln (1 + e)))).
    split; [|split].
    + rewrite kl_default_closed by (now rewrite !map_repeat, !repeat_length).
      now rewrite kl_zero_one.
    + pose proof e_bounds as [Hlo Hhi]. pose proof (pos_INR d) as Hd.
      assert (Ht : 1 + e + 0 ^ 2 - 1 - ln (1 + e) = e - ln (1 + e))
        by (simpl; lra).
      rewrite Ht. split; [nra|nra].
    + intros Hd20. pose proof e_bounds as [Hlo Hhi].
      pose proof (pos_INR d) as Hd.
      assert (Ht : 1 + e + 0 ^ 2 - 1 - ln (1 + e) = e - ln (1 + e))
        by (simpl; lra).
      rewrite Ht. rewrite Rabs_pos_eq by nra.
      assert (He : e * e = e / 10000) by (unfold e; lra).
      rewrite He in Hhi.
      assert (Hx : INR d * (e - ln (1 + e)) <= 20000 * (e / 10000)).
      { apply Rmult_le_compat; lra. }
      lra.
Qed.

Lemma div_one x : div x (Scalar 1) = Returns x.
Proof.
  destruct x as [r|m]; unfold div; simpl.
  - now rewrite Rdiv_1_r.
  - do 2 f_equal. rewrite <- (map_id m) at 2. apply map_ext. intros row.
    rewrite <- (map_id row) at 2. apply map_ext. intros a. apply Rdiv_1_r.
Qed.

Lemma sub_zero x : sub x (Scalar 0) = Returns x.
Proof.
  destruct x as [r|m]; unfold sub; simpl.
  - now rewrite Rminus_0_r.
  - do 2 f_equal. rewrite <- (map_id m) at 2. apply map_ext. intros row.
    rewrite <- (map_id row) at 2. apply map_ext. intros a. apply Rminus_0_r.
Qed.

Lemma kl_special_general mu0 v :
  kl_special mu0 v = kl_general mu0 v (Scalar 0) (Scalar 1).
Proof.
  unfold kl_general, kl_special.
  rewrite div_one, sub_zero. cbn [bind]. rewrite div_one. cbn [bind].
  destruct (add v (square mu0)) as [a|]; cbn [bind]; [|reflexivity].
  destruct (sub a (Scalar 1)) as [b|]; cbn [bind]; reflexivity.
Qed.

(** C5: the expression of the special branch equals the expression of
    the general branch at [mu1 = 0.0] and [var1 = 1.0] when the epsilon is
    not added to [var1]; the else branch of the code does add it, so it
    computes the general expression at [var1 = 1 + 1e-4], and the two
    differ (at [mu0 = 0], [var0 = 1]).  The branch is chosen by a test on
    the host: a tensor for [mu1] or [var1] always takes the else branch,
    whatever its elements are, and a scalar passes the test exactly when
    it is equal to the constant. *)
Theorem kl_special_branch_refines_general :
  (forall mu0 v, kl_special mu0 v = kl_general mu0 v (Scalar 0) (Scalar 1))
  /\ (forall mu0 var0,
        kl_normal mu0 var0 (Scalar 0) (Scalar 1)
        = (v <- add var0 (Scalar e) ;;
           kl <- kl_general mu0 v (Scalar 0) (Scalar 1) ;;
           s <- reduce_sum_1 kl ;;
           Returns (map (Rmult (1 / 2)) s)))
  /\ (forall mu0 v,
        kl_else mu0 v (Scalar 0) (Scalar 1)
        = kl_general mu0 v (Scalar 0) (Scalar (1 + e)))
  /\ kl_special (Matrix [[0]]) (Matrix [[1 + e]])
     <> kl_else (Matrix [[0]]) (Matrix [[1 + e]]) (Scalar 0) (Scalar 1)
  /\ (forall mu0 var0 mu1 var1,
        (exists m, mu1 = Matrix m) \/ (exists m, var1 = Matrix m) ->
        kl_normal mu0 var0 mu1 var1
        = (v <- add var0 (Scalar e) ;;
           kl <- kl_else mu0 v mu1 var1 ;;
           s <- reduce_sum_1 kl ;;
           Returns (map (Rmult (1 / 2)) s)))
  /\ (forall r c, host_eq (Scalar r) c = true <-> r = c).
Proof.
  repeat apply conj.
  - apply kl_special_general.
  - intros mu0 var0. unfold kl_normal.
    change (Scalar 0) with default_mu1. change (Scalar 1) with default_var1.
    rewrite host_test_default.
    destruct (add var0 (Scalar e)) as [v|]; simpl; [|reflexivity].
    now rewrite kl_special_general.
  - reflexivity.
  - intros H. cbn in H. inversion H as [Hr].
    pose proof e_bounds as [Hlo _].
    replace ((1 + e) / (1 + e)) with 1 in Hr by (unfold e; field).
    rewrite ln_1 in Hr. unfold e in *. lra.
  - intros mu0 var0 mu1 var1 [[m ->]|[m ->]]; unfold kl_normal; simpl;
      [|rewrite andb_false_r]; reflexivity.
  - apply host_eq_scalar.
Qed.

End KlFacts.

(** ** Multi-indices and row-major order *)

Section TensorFacts.

Lemma swap_axis_involutive k i : swap_axis k (swap_axis k i) = i.
Proof.
  unfold swap_axis.
  destruct (i =? 0) eqn:H0; [apply Nat.eqb_eq in H0|apply Nat.eqb_neq in H0].
  - subst. destruct (k =? 0) eqn:Hk; [now apply Nat.eqb_eq in Hk|].
    now rewrite Nat.eqb_refl.
  - destruct (i =? k) eqn:Hk; [apply Nat.eqb_eq in Hk|apply Nat.eqb_neq in Hk].
    + now subst.
    + apply Nat.eqb_neq in H0, Hk. now rewrite H0, Hk.
Qed.

Lemma swap_axis_bound n k i : k < n -> i < n -> swap_axis k i < n.
Proof.
  unfold swap_axis. intros Hk Hi.
  destruct (i =? 0); [assumption|]. destruct (i =? k); [lia|assumption].
Qed.

Lemma nth_map_seq {A} (f : nat -> A) n i d :
  i < n -> nth i (map f (seq 0 n)) d = f i.
Proof.
  intros Hi. rewrite (nth_indep _ d (f 0)) by (now rewrite length_map, length_seq).
  rewrite (map_nth f (seq 0 n) 0 i), seq_nth by assumption. reflexivity.
Qed.

Lemma map_nth_seq {A} (l : list A) d :
  map (fun j => nth j l d) (seq 0 (length l)) = l.
Proof.
  apply (nth_ext _ _ d d).
  - now rewrite length_map, length_seq.
  - intros i Hi. rewrite length_map, length_seq in Hi.
    now rewrite nth_map_seq.
Qed.

Lemma swap_axes_length {A} (d : A) k l : length (swap_axes d k l) = length l.
Proof. unfold swap_axes. now rewrite length_map, length_seq. Qed.

Lemma nth_swap_axes {A} (d : A) k l i :
  i < length l -> nth i (swap_axes d k l) d = nth (swap_axis k i) l d.
Proof. intros Hi. unfold swap_axes. now rewrite nth_map_seq. Qed.

Lemma swap_axes_involutive {A} (d : A) k l :
  k < length l -> swap_axes d k (swap_axes d k l) = l.
Proof.
  intros Hk. apply (nth_ext _ _ d d).
  - now rewrite !swap_axes_length.
  - intros i Hi. rewrite !swap_axes_length in Hi.
    rewrite nth_swap_axes by (now rewrite swap_axes_length).
    rewrite nth_swap_axes by (now apply swap_axis_bound).
    now rewrite swap_axis_involutive.
Qed.

Lemma in_bounds_spec s : forall idx,
  in_bounds s idx <->
  length idx = length s /\ forall j, j < length s -> nth j idx 0 < nth j s 0.
Proof.
  induction s as [|n s IH]; intros [|i idx]; simpl.
  - split; [intros _; split; [reflexivity|intros j Hj; lia]|auto].
  - split; [intros []|intros [H _]; discriminate].
  - split; [intros []|intros [H _]; discriminate].
  - rewrite IH. split.
    + intros [Hi [Hl Hn]]. split; [now rewrite Hl|].
      intros [|j] Hj; [assumption|]. apply Hn. lia.
    + intros [Hl Hn]. split; [apply (Hn 0); lia|].
      split; [now inversion Hl|].
      intros j Hj. apply (Hn (S j)). lia.
Qed.

Lemma in_bounds_swap k s idx :
  k < length s -> in_bounds s idx ->
  in_bounds (swap_axes 0 k s) (swap_axes 0 k idx).
Proof.
  intros Hk H. apply in_bounds_spec in H as [Hl Hn].
  apply in_bounds_spec. rewrite !swap_axes_length. split; [assumption|].
  intros j Hj. rewrite !nth_swap_axes by lia.
  apply Hn. now apply swap_axis_bound.
Qed.

Lemma offset_bound s : forall idx, in_bounds s idx -> offset s idx < numel s.
Proof.
  induction s as [|n s IH]; intros [|i idx]; simpl; try tauto; try lia.
  intros [Hi Hb]. specialize (IH _ Hb). nia.
Qed.

Lemma offset_injective s : forall i1 i2,
  in_bounds s i1 -> in_bounds s i2 -> offset s i1 = offset s i2 -> i1 = i2.
Proof.
  induction s as [|n s IH]; intros [|a i1] [|b i2]; simpl; try tauto.
  intros [Ha H1] [Hb H2] Heq.
  pose proof (@offset_bound _ _ H1). pose proof (@offset_bound _ _ H2).
  assert (a = b) by nia. subst b.
  f_equal. apply IH; auto. lia.
Qed.

Lemma all_indices_in_bounds s : forall idx,
  In idx (all_indices s) -> in_bounds s idx.
Proof.
  induction s as [|n s IH]; intros idx; simpl.
  - intros [<-|[]]. exact I.
  - rewrite in_flat_map. intros (i & Hi & Hm).
    apply in_map_iff in Hm as (idx' & <- & Hin).
    apply in_seq in Hi. split; [lia|auto].
Qed.

Lemma flat_map_seq_blocks m n : forall a,
  flat_map (fun i => seq (i * m) m) (seq a n) = seq (a * m) (n * m).
Proof.
  induction n as [|n IH]; intros a; simpl; [reflexivity|].
  rewrite IH, seq_app. do 2 f_equal. lia.
Qed.

Lemma map_add_seq b m : forall a,
  map (fun j => b + j) (seq a m) = seq (b + a) m.
Proof.
  induction m as [|m IH]; intros a; simpl; [reflexivity|].
  rewrite IH. do 2 f_equal. lia.
Qed.

Lemma offsets_all_indices s :
  map (offset s) (all_indices s) = seq 0 (numel s).
Proof.
  induction s as [|n s IH]; simpl; [reflexivity|].
  rewrite flat_map_concat_map, concat_map, map_map, <- flat_map_concat_map.
  rewrite (flat_map_ext _ (fun i => seq (i * numel s) (numel s))).
  - apply (flat_map_seq_blocks (numel s) n 0).
  - intros i. rewrite map_map. simpl.
    rewrite <- (map_map (offset s) (fun j => i * numel s + j)), IH.
    rewrite map_add_seq. f_equal. lia.
Qed.

Lemma all_indices_length s : length (all_indices s) = numel s.
Proof.
  rewrite <- (length_map (offset s)), offsets_all_indices. apply length_seq.
Qed.

Lemma nth_all_indices s idx d :
  in_bounds s idx -> nth (offset s idx) (all_indices s) d = idx.
Proof.
  intros Hb. pose proof (@offset_bound _ _ Hb) as Hlt.
  apply (offset_injective s); [|assumption|].
  - apply all_indices_in_bounds, nth_In. now rewrite all_indices_length.
  - rewrite (nth_indep _ d []) by (now rewrite all_indices_length).
    rewrite <- (map_nth (offset s)).
    rewrite (nth_indep _ _ 0) by (now rewrite length_map, all_indices_length).
    rewrite offsets_all_indices. now rewrite seq_nth.
Qed.

Lemma gather_all_indices {E} (d : E) s (l : list E) :
  length l = numel s ->
  map (fun idx => nth (offset s idx) l d) (all_indices s) = l.
Proof.
  intros Hl.
  rewrite <- (map_map (offset s) (fun j => nth j l d)), offsets_all_indices.
  rewrite <- Hl. apply map_nth_seq.
Qed.

End TensorFacts.

(** ** [transpose_sequence] *)

Section TransposeFacts.

Variable E : Type.
Variable zero : E.

Lemma perm_after_swap n k :
  k < n ->
  list_set (list_set (map Z.of_nat (seq 0 n)) 0 (Z.of_nat k)) k 0%Z
  = swap_perm n k.
Proof.
  intros Hk. unfold swap_perm. apply (nth_ext _ _ 0%Z 0%Z).
  - now rewrite !list_set_length, !length_map.
  - intros i Hi.
    rewrite !list_set_length, length_map, length_seq in Hi.
    rewrite nth_list_set
      by (now rewrite list_set_length, length_map, length_seq).
    rewrite nth_list_set by (rewrite length_map, length_seq; lia).
    rewrite !nth_map_seq by assumption.
    unfold swap_axis.
    destruct (i =? k) eqn:Hik, (i =? 0) eqn:Hi0; try reflexivity.
    apply Nat.eqb_eq in Hik, Hi0. now subst.
Qed.

Lemma transpose_sequence_perm (a : tensor E) (seq_axis : Z) :
  (0 <= seq_axis < Z.of_nat (rank a))%Z ->
  transpose_sequence zero a seq_axis
  = tf_transpose zero a (swap_perm (rank a) (Z.to_nat seq_axis)).
Proof.
  intros Ha. unfold transpose_sequence, py_setitem, rank in *.
  rewrite length_map, length_seq.
  rewrite py_index_nonnegative by lia. cbn [bind].
  rewrite list_set_length, length_map, length_seq.
  rewrite py_index_nonnegative by lia. cbn [bind Z.to_nat].
  rewrite <- perm_after_swap by lia.
  now rewrite Z2Nat.id by lia.
Qed.

Lemma valid_swap_perm n k : k < n -> valid_perm n (swap_perm n k) = true.
Proof.
  intros Hk. unfold valid_perm, swap_perm.
  rewrite length_map, length_seq, Nat.eqb_refl. simpl.
  apply forallb_forall. intros m Hm. apply in_seq in Hm.
  apply existsb_exists. exists (Z.of_nat m). split; [|apply Z.eqb_refl].
  apply in_map_iff. exists (swap_axis k m). split.
  - now rewrite swap_axis_involutive.
  - apply in_seq. pose proof (@swap_axis_bound n k m). lia.
Qed.

Lemma find_pos_map (f : nat -> nat) m len : forall a j,
  a <= j < a + len ->
  (forall i, a <= i < j -> f i <> m) ->
  f j = m ->
  find_pos m (map (fun i => Z.of_nat (f i)) (seq a len)) = j - a.
Proof.
  induction len as [|len IH]; intros a j Hj Hne Hf; [lia|].
  simpl. destruct (Z.of_nat (f a) =? Z.of_nat m)%Z eqn:Ha.
  - apply Z.eqb_eq, Nat2Z.inj in Ha.
    destruct (Nat.eq_dec a j) as [->|Hd]; [lia|].
    exfalso. apply (Hne a); [lia|assumption].
  - apply Z.eqb_neq in Ha.
    assert (a <> j) by (intros ->; apply Ha; now rewrite Hf).
    rewrite (IH (S a) j); [lia|lia| |assumption].
    intros i Hi. apply Hne. lia.
Qed.

Lemma find_pos_swap n k m :
  k < n -> m < n -> find_pos m (swap_perm n k) = swap_axis k m.
Proof.
  intros Hk Hm. unfold swap_perm.
  rewrite (@find_pos_map (swap_axis k) m n 0 (swap_axis k m)).
  - lia.
  - pose proof (@swap_axis_bound n k m). lia.
  - intros i Hi Heq. rewrite <- Heq, swap_axis_involutive in Hi. lia.
  - apply swap_axis_involutive.
Qed.

Lemma source_index_swap n k oidx :
  k < n -> length oidx = n ->
  source_index (swap_perm n k) oidx = swap_axes 0 k oidx.
Proof.
  intros Hk Hl. unfold source_index, swap_axes.
  unfold swap_perm at 2. rewrite length_map, length_seq, Hl.
  apply map_ext_in. intros m Hm. apply in_seq in Hm.
  rewrite find_pos_swap by lia. reflexivity.
Qed.

Lemma gather_shape n k (s : list nat) :
  length s = n ->
  map (fun p => nth (Z.to_nat p) s 0) (swap_perm n k) = swap_axes 0 k s.
Proof.
  intros Hl. unfold swap_perm, swap_axes. rewrite map_map, Hl.
  apply map_ext. intros i. now rewrite Nat2Z.id.
Qed.

Lemma tf_transpose_swap (a : tensor E) k :
  k < rank a ->
  tf_transpose zero a (swap_perm (rank a) k)
  = Returns (mkTensor (swap_axes 0 k (shape a))
               (map (fun oidx => at_index zero a (swap_axes 0 k oidx))
                    (all_indices (swap_axes 0 k (shape a))))).
Proof.
  intros Hk. unfold tf_transpose. rewrite valid_swap_perm by assumption.
  rewrite gather_shape by reflexivity. do 2 f_equal.
  apply map_ext_in. intros oidx Hin.
  apply all_indices_in_bounds, in_bounds_spec in Hin as [Hl _].
  rewrite swap_axes_length in Hl.
  now rewrite (@source_index_swap (rank a) k oidx Hk Hl).
Qed.

Lemma transpose_data_twice (a : tensor E) k :
  wf a -> k < rank a ->
  map (fun oidx =>
         nth (offset (swap_axes 0 k (shape a)) (swap_axes 0 k oidx))
             (map (fun o => nth (offset (shape a) (swap_axes 0 k o))
                                (data a) zero)
                  (all_indices (swap_axes 0 k (shape a))))
             zero)
      (all_indices (shape a))
  = data a.
Proof.
  intros Hwf Hk. unfold rank in Hk.
  rewrite <- (gather_all_indices zero (shape a) (data a) Hwf) at 1.
  apply map_ext_in. intros oidx Hin.
  apply all_indices_in_bounds in Hin.
  pose proof (@in_bounds_swap k _ _ Hk Hin) as Hsw.
  pose proof (@offset_bound _ _ Hsw) as Hlt.
  rewrite (nth_indep _ zero (at_index zero a (swap_axes 0 k [])))
    by (now rewrite length_map, all_indices_length).
  unfold at_index.
  rewrite (map_nth (fun o => nth (offset (shape a) (swap_axes 0 k o))
                                 (data a) zero)).
  rewrite nth_all_indices by assumption.
  rewrite swap_axes_involutive; [reflexivity|].
  apply in_bounds_spec in Hin as [Hl _]. now rewrite Hl.
Qed.

(** C6: for a tensor of known rank and an axis [0 <= seq_axis < rank],
    [transpose_sequence] returns the tensor whose shape and whose indices
    are those of the input with the axes 0 and [seq_axis] exchanged and
    every other axis in place; applied to that result with the same axis it
    returns the input. *)
Theorem transpose_sequence_involutive (a : tensor E) (seq_axis : Z) :
  wf a ->
  (0 <= seq_axis < Z.of_nat (rank a))%Z ->
  let k := Z.to_nat seq_axis in
  exists t,
    transpose_sequence zero a seq_axis = Returns t
    /\ shape t = swap_axes 0 k (shape a)
    /\ (forall idx, in_bounds (shape t) idx ->
                    at_index zero t idx = at_index zero a (swap_axes 0 k idx))
    /\ wf t
    /\ transpose_sequence zero t seq_axis = Returns a.
Proof.
  intros Hwf Ha. cbv zeta.
  rewrite transpose_sequence_perm by assumption.
  remember (Z.to_nat seq_axis) as k eqn:Ek.
  assert (Hk : k < rank a) by lia.
  rewrite tf_transpose_swap by assumption.
  eexists. split; [reflexivity|]. cbn [shape data].
  split; [reflexivity|]. split; [|split].
  - intros idx Hb. unfold at_index at 1. cbn [shape data].
    pose proof (@offset_bound _ _ Hb) as Hlt.
    rewrite (nth_indep _ zero (at_index zero a (swap_axes 0 k [])))
      by (now rewrite length_map, all_indices_length).
    rewrite (map_nth (fun o => at_index zero a (swap_axes 0 k o))).
    now rewrite nth_all_indices.
  - unfold wf. cbn [shape data].
    now rewrite length_map, all_indices_length.
  - set (t := mkTensor _ _).
    assert (Hr : rank t = rank a)
      by (unfold rank, t; cbn [shape]; apply swap_axes_length).
    rewrite transpose_sequence_perm by (rewrite Hr; assumption).
    rewrite <- Ek, Hr.
    replace (rank a) with (rank t) at 1 by assumption.
    rewrite tf_transpose_swap by (rewrite Hr; assumption).
    unfold t at 1 2. cbn [shape].
    unfold at_index, t. cbn [shape data].
    rewrite !swap_axes_involutive by assumption. cbn [shape data].
    rewrite transpose_data_twice by assumption.
    now destruct a.
Qed.

End TransposeFacts.

(** ** [setup_sequence] *)

Section SequenceFacts.

Variable E : Type.
Variable call : string -> list (value E) -> value E + string.
Variable zero : E.

Lemma state_after_cons wl c s0 x xs k :
  state_after call wl c s0 (x :: xs) (S k)
  = (a <- scan_fn call wl c s0 x ;; state_after call wl c a xs k).
Proof.
  induction k as [|k IH].
  - cbn [state_after bind nth_error]. fold (scan_fn call wl c s0 x).
    now rewrite bind_returns_r.
  - change (state_after call wl c s0 (x :: xs) (S (S k)))
      with (prev <- state_after call wl c s0 (x :: xs) (S k) ;;
            match nth_error (x :: xs) (S k) with
            | Some x0 => e <- setup call x0 wl ;;
                         py_call call (VFn (cell_setup c)) [e; prev]
            | None => Raises IndexError
            end).
    rewrite IH, bind_assoc. reflexivity.
Qed.

Lemma scan_loop_states wl c xs : forall s0 outs,
  scan_loop (scan_fn call wl c) s0 xs = Returns outs <->
  length outs = length xs
  /\ forall i, i < length xs ->
       state_after call wl c s0 xs (S i) = Returns (nth i outs VNone).
Proof.
  induction xs as [|x xs IH]; intros s0 outs.
  - simpl. split.
    + intros H; inversion H. split; [reflexivity|intros; lia].
    + intros [Hl _]. destruct outs; [reflexivity|discriminate].
  - cbn [scan_loop]. split.
    + intros H. apply bind_returns_inv in H as (a & Ha & H).
      apply bind_returns_inv in H as (rest & Hrest & H).
      inversion H; subst outs. apply IH in Hrest as [Hl Hst].
      split; [simpl; now rewrite Hl|].
      intros [|i] Hi; rewrite state_after_cons, Ha; cbn [bind nth].
      * reflexivity.
      * apply Hst. simpl in Hi. lia.
    + intros [Hl Hst]. destruct outs as [|o outs]; [discriminate|].
      pose proof (Hst 0 ltac:(simpl; lia)) as H0.
      rewrite state_after_cons in H0.
      apply bind_returns_inv in H0 as (a & Ha & H0).
      cbn in H0. inversion H0; subst o. rewrite Ha. cbn [bind].
      assert (Hrest : scan_loop (scan_fn call wl c) a xs = Returns outs).
      { apply IH. split; [now inversion Hl|].
        intros i Hi. specialize (Hst (S i) ltac:(simpl; lia)).
        rewrite state_after_cons, Ha in Hst. exact Hst. }
      now rewrite Hrest.
Qed.

Lemma stack_data_spec s vs : forall d,
  stack_data s vs = Returns d <->
  exists ts : list (tensor E),
    vs = map (@VTensor E) ts
    /\ Forall (fun t => shape t = s) ts
    /\ d = concat (map (@data E) ts).
Proof.
  induction vs as [|v vs IH]; intros d.
  - simpl. split.
    + intros H; inversion H. exists []. auto.
    + intros (ts & Hts & _ & ->). destruct ts; [reflexivity|discriminate].
  - split.
    + intros H. destruct v; simpl in H; try discriminate.
      unfold shape_eqb in H. destruct (list_eq_dec Nat.eq_dec (shape t) s);
        [|discriminate].
      apply bind_returns_inv in H as (d' & Hd' & H). inversion H; subst d.
      apply IH in Hd' as (ts & -> & Hall & ->).
      exists (t :: ts). auto.
    + intros ([|t ts] & Hts & Hall & ->); [discriminate|].
      inversion Hts; subst. inversion Hall; subst. simpl.
      unfold shape_eqb. destruct (list_eq_dec Nat.eq_dec (shape t) (shape t));
        [|congruence].
      assert (H : stack_data (shape t) (map (@VTensor E) ts)
                  = Returns (concat (map (@data E) ts))).
      { apply IH. exists ts. auto. }
      now rewrite H.
Qed.

Lemma unstack_slices s (ts : list (tensor E)) :
  Forall (fun t => shape t = s /\ wf t) ts ->
  map (fun i => mkTensor s (firstn (numel s)
                              (skipn (i * numel s) (concat (map (@data E) ts)))))
      (seq 0 (length ts))
  = ts.
Proof.
  induction ts as [|t ts IH]; intros Hall; [reflexivity|].
  inversion Hall as [|? ? [Hs Hw] Hrest]; subst.
  cbn [length seq map concat]. f_equal.
  - unfold wf in Hw. cbn [Nat.mul skipn].
    rewrite firstn_app, <- Hw, firstn_all, Nat.sub_diag. cbn [firstn].
    rewrite app_nil_r. now destruct t.
  - rewrite <- seq_shift, map_map. rewrite <- (IH Hrest) at 2.
    apply map_ext. intros i. do 2 f_equal.
    unfold wf in Hw.
    replace (S i * numel (shape t)) with (i * numel (shape t) + length (data t))
      by (rewrite Hw; lia).
    rewrite <- skipn_skipn. f_equal.
    now rewrite skipn_app, skipn_all, Nat.sub_diag.
Qed.


Lemma slices_length (t : tensor E) : length (slices t) = nth 0 (shape t) 0.
Proof.
  unfold slices. destruct (shape t); [reflexivity|].
  now rewrite length_map, length_seq.
Qed.

Lemma unstack_stack s (ts : list (tensor E)) :
  Forall (fun t => shape t = s) ts -> Forall (@wf E) ts ->
  unstack (mkTensor (length ts :: s) (concat (map (@data E) ts))) = Returns ts.
Proof.
  intros Hs Hw. unfold unstack, slices. cbn [shape data]. f_equal.
  apply unstack_slices. rewrite Forall_forall in *. auto.
Qed.

Lemma nth_map_tensor (ts : list (tensor E)) i t0 :
  i < length ts -> nth i (map (@VTensor E) ts) VNone = VTensor (nth i ts t0).
Proof.
  intros Hi. rewrite (nth_indep _ VNone (VTensor t0)) by (now rewrite length_map).
  apply map_nth.
Qed.

Lemma unstack_nonscalar (a : tensor E) :
  shape a <> [] -> unstack a = Returns (slices a).
Proof. unfold unstack. destruct (shape a); [congruence|reflexivity]. Qed.

Lemma setup_sequence_scan_output (a : tensor E) wl c t0 y :
  shape a <> [] ->
  setup_sequence call zero a wl false false (Some c) (Some (VTensor t0))
  = Returns y <->
  exists states, scan_output call wl c t0 (map (@VTensor E) (slices a)) states y.
Proof.
  intros Hrank. unfold setup_sequence, tf_scan, scan_output. cbn [bind].
  rewrite (unstack_nonscalar a Hrank). cbn [bind].
  split.
  - intros H. apply bind_returns_inv in H as (y0 & H & Hy). injection Hy as ->.
    apply bind_returns_inv in H as (outs & Hscan & Hstack).
    apply bind_returns_inv in Hstack as (d & Hd & Hy').
    injection Hy' as <-.
    apply stack_data_spec in Hd as (ts & -> & Hall & ->).
    apply scan_loop_states in Hscan as [Hl Hst].
    rewrite length_map in Hl.
    exists ts. split; [assumption|]. split; [|split; [assumption|]].
    + intros i Hi. rewrite (Hst i Hi).
      now rewrite (nth_map_tensor ts t0) by lia.
    + now rewrite length_map, Hl.
  - intros (states & Hl & Hst & Hall & ->).
    assert (Hscan : scan_loop (scan_fn call wl c) (VTensor t0)
                              (map (@VTensor E) (slices a))
                    = Returns (map (@VTensor E) states)).
    { apply scan_loop_states. split; [now rewrite length_map|].
      intros i Hi. rewrite (Hst i Hi).
      now rewrite (nth_map_tensor states t0) by lia. }
    rewrite Hscan. cbn [bind]. unfold tf_stack.
    assert (Hd : stack_data (shape t0) (map (@VTensor E) states)
                 = Returns (concat (map (@data E) states))).
    { apply stack_data_spec. exists states. auto. }
    rewrite Hd. cbn [bind]. now rewrite length_map, Hl.
Qed.

Lemma state_after_prefix wl c s0 xs xs' k :
  firstn k xs = firstn k xs' ->
  state_after call wl c s0 xs k = state_after call wl c s0 xs' k.
Proof.
  induction k as [|k IH]; intros H; [reflexivity|].
  assert (Hk : firstn k xs = firstn k xs').
  { rewrite <- (Nat.min_l k (S k)) by lia.
    rewrite <- !firstn_firstn. now rewrite H. }
  assert (Hn : nth_error xs k = nth_error xs' k).
  { pose proof (nth_error_firstn (S k) xs k) as H1.
    pose proof (nth_error_firstn (S k) xs' k) as H2.
    replace (k <? S k) with true in * by (symmetry; apply Nat.ltb_lt; lia).
    rewrite <- H1, <- H2. now rewrite H. }
  cbn [state_after]. now rewrite (IH Hk), Hn.
Qed.

(** C2: with a recurrent cell and an initial state [s0], [setup_sequence]
    is the left-to-right scan [state_{-1} = s0],
    [state_i = cell.setup(setup(seq_i, widget_list), state_{i-1})] over the
    slices of [seq] along its leading axis: it returns exactly when every
    step returns a state of the shape of [s0], and then its output is the
    stack of the states, one for each slice ([output_i = state_i]);
    [state_i], hence [output_i], is the same for two sequences that agree on
    the slices 0 to [i].  Without [init_state] the scan starts from the
    zero tensor of shape [(batch_size, cell.state_size)], [batch_size] being
    axis 1 of [seq]; with [transpose_in] all this holds of the transposed
    sequence. *)
Theorem setup_sequence_is_scan (a : tensor E) (wl : value E) (c : cell) :
  shape a <> [] ->
  let xs := map (@VTensor E) (slices a) in
  (forall t0 y,
      setup_sequence call zero a wl false false (Some c) (Some (VTensor t0))
      = Returns y <->
      exists states, scan_output call wl c t0 xs states y)
  /\ length xs = nth 0 (shape a) 0
  /\ (forall t0 states y,
        scan_output call wl c t0 xs states y ->
        shape y = length xs :: shape t0
        /\ (Forall (@wf E) states -> unstack y = Returns states))
  /\ (forall s0 (a' : tensor E) i,
        firstn (S i) (slices a) = firstn (S i) (slices a') ->
        state_after call wl c s0 xs (S i)
        = state_after call wl c s0 (map (@VTensor E) (slices a')) (S i))
  /\ (forall t0 (a' : tensor E) states states' y y' i,
        scan_output call wl c t0 xs states y ->
        scan_output call wl c t0 (map (@VTensor E) (slices a')) states' y' ->
        firstn (S i) (slices a) = firstn (S i) (slices a') ->
        i < length (slices a) -> i < length (slices a') ->
        nth i states t0 = nth i states' t0)
  /\ (forall batch_size,
        nth_error (shape a) 1 = Some batch_size ->
        setup_sequence call zero a wl false false (Some c) None
        = setup_sequence call zero a wl false false (Some c)
            (Some (VTensor (tf_zeros zero [batch_size; state_size c])))
        /\ shape (tf_zeros zero [batch_size; state_size c])
           = [batch_size; state_size c]
        /\ Forall (eq zero) (data (tf_zeros zero [batch_size; state_size c])))
  /\ (forall tout init,
        setup_sequence call zero a wl true tout (Some c) init
        = (a' <- transpose_sequence zero a 1 ;;
           setup_sequence call zero a' wl false tout (Some c) init)).
Proof.
  intros Hrank xs. repeat apply conj.
  - intros t0 y. now apply setup_sequence_scan_output.
  - unfold xs. rewrite length_map. apply slices_length.
  - intros t0 states y (Hl & _ & Hshape & ->). split; [reflexivity|].
    intros Hwf. rewrite <- Hl. now apply unstack_stack.
  - intros s0 a' i H. apply state_after_prefix. unfold xs.
    now rewrite !firstn_map, H.
  - intros t0 a' states states' y y' i (_ & Hst & _) (_ & Hst' & _) H Hi Hi'.
    specialize (Hst i ltac:(unfold xs; now rewrite length_map)).
    specialize (Hst' i ltac:(now rewrite length_map)).
    rewrite (@state_after_prefix wl c (VTensor t0) xs
               (map (@VTensor E) (slices a')) (S i)) in Hst
      by (unfold xs; now rewrite !firstn_map, H).
    congruence.
  - intros batch_size Hb. split; [|split].
    + unfold setup_sequence. cbn [bind]. now rewrite Hb.
    + reflexivity.
    + unfold tf_zeros. cbn [data]. apply Forall_forall.
      intros x Hx. symmetry. now apply repeat_spec in Hx.
  - intros tout init. unfold setup_sequence.
    destruct (transpose_sequence zero a 1); reflexivity.
Qed.

End SequenceFacts.

(** * Further properties *)

(** ** [setup] *)

Section SetupMore.

Variable E : Type.
Variable call : string -> list (value E) -> value E + string.

(** X1: widget lists compose: [setup] over the concatenation of two lists
    is [setup] over the second list applied to the result of [setup] over
    the first, an exception of the first part being the result. *)
Theorem setup_concat (x : value E) (l1 l2 : list (value E)) :
  setup call x (VList (l1 ++ l2))
  = (y <- setup call x (VList l1) ;; setup call y (VList l2)).
Proof. apply setup_loop_app. Qed.

(** X2: the fold stops at the first exception: when the widgets before
    [w] have returned [y] and the step of [w] from [y] raises [e], then
    [setup] raises [e] whatever entries follow [w] in the list. *)
Theorem setup_stops_at_exception (x y w : value E) pre post (e : exn E) :
  setup call x (VList pre) = Returns y ->
  setup_step call y w = Raises e ->
  setup call x (VList (pre ++ w :: post)) = Raises e.
Proof.
  unfold setup. cbn [as_widget_list is_list_or_tuple negb items_of].
  intros Hpre Hw. rewrite setup_loop_app, Hpre. cbn [bind setup_loop].
  now rewrite Hw.
Qed.

Lemma setup_step_skipped y (w : value E) :
  is_skipped w = true -> setup_step call y w = Returns y.
Proof.
  destruct w as [| | | | |[|]|[|]]; simpl; intros H;
    try discriminate; reflexivity.
Qed.

(** X3: the entries [None], [()] and [[]] are neutral: removing them from
    the widget list does not change what [setup] returns or raises. *)
Theorem setup_ignores_skipped (x : value E) (ws : list (value E)) :
  setup call x (VList ws)
  = setup call x (VList (filter (fun w => negb (is_skipped w)) ws)).
Proof.
  unfold setup. cbn [as_widget_list is_list_or_tuple negb items_of].
  revert x. induction ws as [|w ws IH]; intros x; [reflexivity|].
  cbn [filter]. destruct (is_skipped w) eqn:Hw; cbn [negb setup_loop].
  - rewrite (setup_step_skipped x w Hw). cbn [bind]. apply IH.
  - destruct (setup_step call x w); cbn [bind]; [apply IH|reflexivity].
Qed.

End SetupMore.

(** ** [setup_sequence] without a cell *)

Section SequenceMore.

Variable E : Type.
Variable call : string -> list (value E) -> value E + string.
Variable zero : E.

Lemma map_loop_spec (fn : value E -> result E) xs : forall vs,
  map_loop fn xs = Returns vs <-> Forall2 (fun x v => fn x = Returns v) xs vs.
Proof.
  induction xs as [|x xs IH]; intros vs; cbn [map_loop].
  - split.
    + intros H. injection H as <-. constructor.
    + intros H. inversion H. reflexivity.
  - split.
    + intros H. apply bind_returns_inv in H as (b & Hb & H).
      apply bind_returns_inv in H as (outs & Houts & H).
      injection H as <-. constructor; [assumption|]. now apply IH.
    + intros H. inversion H as [|? v ? vs' Hx Hrest]; subst.
      rewrite Hx. cbn [bind]. apply IH in Hrest. now rewrite Hrest.
Qed.

Lemma Forall2_tensors (fn : value E -> result E) xs : forall ts,
  Forall2 (fun x v => fn x = Returns v)
          (map (@VTensor E) xs) (map (@VTensor E) ts)
  <-> Forall2 (fun x t => fn (VTensor x) = Returns (VTensor t)) xs ts.
Proof.
  induction xs as [|x xs IH]; intros [|t ts]; cbn [map];
    (split; intros H; inversion H; subst; constructor; auto;
     now apply IH).
Qed.

Lemma map_branch_spec (a : tensor E) (wl : value E)
      (init_state : option (value E)) (y : tensor E) :
  shape a <> [] ->
  setup_sequence call zero a wl false false None init_state = Returns y <->
  exists o outs,
    Forall2 (fun x t => setup call (VTensor x) wl = Returns (VTensor t))
            (slices a) (o :: outs)
    /\ Forall (fun t => shape t = shape o) outs
    /\ y = mkTensor (length (slices a) :: shape o)
                    (concat (map (@data E) (o :: outs))).
Proof.
  intros Hrank. unfold setup_sequence, tf_map_fn. cbn [bind].
  rewrite (unstack_nonscalar a Hrank). cbn [bind]. split.
  - intros H. apply bind_returns_inv in H as (y0 & H & Hy). injection Hy as ->.
    apply bind_returns_inv in H as (vs & Hmap & Hstack).
    destruct vs as [|[| | | |t0| |] vs]; try discriminate.
    apply bind_returns_inv in Hstack as (d & Hd & Hy). injection Hy as <-.
    apply stack_data_spec in Hd as ([|t ts] & Hts & Hall & ->);
      [discriminate|].
    injection Hts as -> ->. inversion Hall as [|? ? _ Hall']; subst.
    apply map_loop_spec in Hmap.
    exists t, ts. split; [|split; [assumption|]].
    + now apply (Forall2_tensors (fun elem => setup call elem wl)
                                  (slices a) (t :: ts)).
    + cbn [length map]. f_equal. f_equal.
      apply Forall2_length in Hmap. rewrite !length_map in Hmap.
      cbn [length] in Hmap. now rewrite Hmap, length_map.
  - intros (o & outs & Hf & Hall & ->).
    assert (Hmap : map_loop (fun elem => setup call elem wl)
                            (map (@VTensor E) (slices a))
                   = Returns (map (@VTensor E) (o :: outs))).
    { apply map_loop_spec.
      now apply (Forall2_tensors (fun elem => setup call elem wl)). }
    rewrite Hmap. cbn [bind map]. unfold tf_stack.
    assert (Hd : stack_data (shape o) (map (@VTensor E) (o :: outs))
                 = Returns (concat (map (@data E) (o :: outs)))).
    { apply stack_data_spec. exists (o :: outs). auto. }
    cbn [map] in Hd. rewrite Hd. cbn [bind]. do 2 f_equal.
    apply Forall2_length in Hf. cbn [length] in *.
    now rewrite length_map, Hf.
Qed.



Lemma setup_loop_skipped (ws : list (value E)) : forall x,
  forallb (@is_skipped E) ws = true -> setup_loop call x ws = Returns x.
Proof.
  induction ws as [|w ws IH]; intros x H; [reflexivity|].
  cbn [forallb] in H. apply andb_true_iff in H as [Hw Hws].
  cbn [setup_loop]. rewrite (setup_step_skipped call x w Hw). cbn [bind].
  now apply IH.
Qed.

Lemma concat_chunks (m n : nat) : forall d : list E,
  length d = n * m ->
  concat (map (fun i => firstn m (skipn (i * m) d)) (seq 0 n)) = d.
Proof.
  induction n as [|n IH]; intros d Hd.
  - destruct d; [reflexivity|discriminate].
  - cbn [seq map concat]. rewrite <- seq_shift, map_map.
    cbn [Nat.mul skipn].
    transitivity (firstn m d ++ skipn m d); [|apply firstn_skipn]. f_equal.
    etransitivity; [|apply (IH (skipn m d)); rewrite length_skipn, Hd; simpl; lia].
    f_equal. apply map_ext. intros i. f_equal.
    rewrite skipn_skipn. f_equal. lia.
Qed.

Lemma slices_cons (a : tensor E) n s :
  shape a = n :: s ->
  slices a = map (fun i => mkTensor s (firstn (numel s)
                                         (skipn (i * numel s) (data a))))
                 (seq 0 n).
Proof. intros H. unfold slices. now rewrite H. Qed.

Lemma stack_slices (a : tensor E) n s :
  wf a -> shape a = n :: s ->
  mkTensor (length (slices a) :: s) (concat (map (@data E) (slices a))) = a.
Proof.
  intros Hwf Hs. rewrite (slices_cons a Hs), length_map, length_seq, map_map.
  cbn [data]. unfold wf in Hwf. rewrite Hs in Hwf. cbn [numel fold_right] in Hwf.
  rewrite concat_chunks by exact Hwf.
  destruct a as [sh d]. cbn [shape data] in *. now subst.
Qed.

Lemma slices_shape (a t : tensor E) n s :
  shape a = n :: s -> In t (slices a) -> shape t = s.
Proof.
  intros Hs Ht. rewrite (slices_cons a Hs) in Ht.
  apply in_map_iff in Ht as (i & <- & _). reflexivity.
Qed.

Lemma setup_refl_skipped ws (l : list (tensor E)) :
  forallb (@is_skipped E) ws = true ->
  Forall2 (fun x t => setup call (VTensor x) (VList ws) = Returns (VTensor t))
          l l.
Proof.
  intros Hws. induction l; constructor; auto. unfold setup.
  cbn [as_widget_list is_list_or_tuple negb items_of].
  now apply setup_loop_skipped.
Qed.

Lemma identity_map (a : tensor E) ws init n s :
  wf a -> forallb (@is_skipped E) ws = true ->
  shape a = n :: s -> 0 < n ->
  setup_sequence call zero a (VList ws) false false None init = Returns a.
Proof.
  intros Hwf Hws Hs Hn.
  apply map_branch_spec; [rewrite Hs; discriminate|].
  pose proof (stack_slices Hwf Hs) as Hstack.
  pose proof (fun t => @slices_shape a t n s Hs) as Hshape.
  pose proof (slices_length a) as Hlen. rewrite Hs in Hlen. cbn [nth] in Hlen.
  destruct (slices a) as [|o outs]; [cbn [length] in Hlen; lia|].
  exists o, outs. split; [now apply setup_refl_skipped|]. split.
  - apply Forall_forall. intros t Ht.
    rewrite (Hshape o), (Hshape t); cbn [In]; auto.
  - rewrite (Hshape o) by (cbn [In]; auto). now rewrite Hstack.
Qed.

End SequenceMore.

(** ** [transpose_sequence]: edge cases and permutation *)

Section TransposeMore.

Variable E : Type.
Variable zero : E.

Lemma transpose_sequence_value (a : tensor E) (seq_axis : Z) :
  (0 <= seq_axis < Z.of_nat (rank a))%Z ->
  transpose_sequence zero a seq_axis
  = Returns (mkTensor (swap_axes 0 (Z.to_nat seq_axis) (shape a))
               (map (fun oidx => at_index zero a
                                   (swap_axes 0 (Z.to_nat seq_axis) oidx))
                    (all_indices (swap_axes 0 (Z.to_nat seq_axis) (shape a))))).
Proof.
  intros Ha. rewrite transpose_sequence_perm by assumption.
  apply tf_transpose_swap. lia.
Qed.

Lemma transpose_sequence_back (a : tensor E) (seq_axis : Z) :
  wf a ->
  (0 <= seq_axis < Z.of_nat (rank a))%Z ->
  exists t,
    transpose_sequence zero a seq_axis = Returns t
    /\ shape t = swap_axes 0 (Z.to_nat seq_axis) (shape a)
    /\ wf t
    /\ transpose_sequence zero t seq_axis = Returns a.
Proof.
  intros Hwf Ha. rewrite transpose_sequence_value by assumption.
  remember (Z.to_nat seq_axis) as k eqn:Ek.
  assert (Hk : k < rank a) by lia.
  eexists. split; [reflexivity|]. cbn [shape data].
  split; [reflexivity|]. split.
  - unfold wf. cbn [shape data].
    now rewrite length_map, all_indices_length.
  - set (t := mkTensor _ _).
    assert (Hr : rank t = rank a)
      by (unfold rank, t; cbn [shape]; apply swap_axes_length).
    rewrite transpose_sequence_value by (rewrite Hr; assumption).
    rewrite <- Ek. unfold at_index, t. cbn [shape data].
    rewrite !swap_axes_involutive by assumption. unfold at_index.
    rewrite transpose_data_twice by assumption.
    now destruct a.
Qed.

(** X7: an axis outside [[-rank, rank)] makes [transpose_sequence] raise
    the [IndexError] of the list assignment, before the framework is
    called; on a tensor of rank 0 every axis does. *)
Theorem transpose_sequence_index_error (a : tensor E) (seq_axis : Z) :
  ~ (- Z.of_nat (rank a) <= seq_axis < Z.of_nat (rank a))%Z ->
  transpose_sequence zero a seq_axis = Raises IndexError.
Proof.
  intros Hout. unfold transpose_sequence, py_setitem, rank in *.
  rewrite length_map, length_seq.
  destruct (length (shape a)) as [|n] eqn:Hn; [reflexivity|].
  rewrite py_index_nonnegative by lia. cbn [bind].
  rewrite list_set_length, length_map, length_seq.
  now rewrite py_index_outside.
Qed.

Lemma swap_axes_zero {A} (d : A) (l : list A) : swap_axes d 0 l = l.
Proof.
  unfold swap_axes.
  transitivity (map (fun j => nth j l d) (seq 0 (length l)));
    [|apply map_nth_seq].
  apply map_ext. intros i. unfold swap_axis.
  destruct (i =? 0) eqn:H; [apply Nat.eqb_eq in H; now subst|reflexivity].
Qed.

Lemma transpose_axis_zero (a : tensor E) :
  wf a -> 0 < rank a ->
  tf_transpose zero a (swap_perm (rank a) 0) = Returns a.
Proof.
  intros Hwf Hr. rewrite tf_transpose_swap by assumption.
  rewrite swap_axes_zero. f_equal.
  rewrite (map_ext _ (fun oidx => nth (offset (shape a) oidx) (data a) zero)).
  - rewrite gather_all_indices by exact Hwf. now destruct a.
  - intros oidx. unfold at_index. now rewrite swap_axes_zero.
Qed.

(** X8: the axes [0] and [-rank] leave the permutation the identity:
    [transpose_sequence] returns the tensor it is given. *)
Theorem transpose_sequence_trivial_axis (a : tensor E) (seq_axis : Z) :
  wf a -> 0 < rank a ->
  seq_axis = 0%Z \/ seq_axis = (- Z.of_nat (rank a))%Z ->
  transpose_sequence zero a seq_axis = Returns a.
Proof.
  intros Hwf Hr [-> | ->].
  - rewrite transpose_sequence_perm by lia. now apply transpose_axis_zero.
  - rewrite <- (transpose_axis_zero Hwf Hr).
    unfold transpose_sequence, py_setitem, rank in *.
    rewrite length_map, length_seq.
    rewrite py_index_nonnegative by lia. cbn [bind].
    rewrite list_set_length, length_map, length_seq.
    rewrite py_index_negative by lia. cbn [bind].
    replace (Z.to_nat (Z.of_nat (length (shape a)) + - Z.of_nat (length (shape a))))
      with 0 by lia.
    f_equal. rewrite <- (@perm_after_swap (length (shape a)) 0) by lia.
    destruct (length (shape a)); [lia|]. reflexivity.
Qed.


Lemma swap_axes_permutation {A} (d : A) k (l : list A) :
  k < length l -> Permutation l (swap_axes d k l).
Proof.
  intros Hk. apply (Permutation_nth l (swap_axes d k l) d). cbv zeta.
  split; [apply swap_axes_length|].
  exists (swap_axis k). split; [|split].
  - intros x Hx. now apply swap_axis_bound.
  - intros x y _ _ H.
    rewrite <- (swap_axis_involutive k x), <- (swap_axis_involutive k y).
    now rewrite H.
  - intros x Hx. now apply nth_swap_axes.
Qed.

Lemma numel_permutation s s' : Permutation s s' -> numel s = numel s'.
Proof.
  unfold numel.
  induction 1 as [|x l l' _ IH|x y l|l l' l'' _ IH1 _ IH2];
    cbn [fold_right].
  - reflexivity.
  - now rewrite IH.
  - rewrite !Nat.mul_assoc. f_equal. apply Nat.mul_comm.
  - now rewrite IH1.
Qed.

Lemma all_indices_NoDup s : NoDup (all_indices s).
Proof.
  apply (NoDup_map_inv (offset s)). rewrite offsets_all_indices.
  apply seq_NoDup.
Qed.

Lemma transposed_data_permutation (a : tensor E) k :
  wf a -> k < rank a ->
  Permutation (data a)
              (map (fun o => at_index zero a (swap_axes 0 k o))
                   (all_indices (swap_axes 0 k (shape a)))).
Proof.
  intros Hwf Hk. unfold rank in Hk. unfold wf in Hwf.
  assert (Hnum : numel (swap_axes 0 k (shape a)) = numel (shape a))
    by (symmetry; apply numel_permutation, swap_axes_permutation, Hk).
  set (s' := swap_axes 0 k (shape a)) in *.
  assert (Hin : forall x, x < numel (shape a) ->
                  in_bounds s' (nth x (all_indices s') [])).
  { intros x Hx. apply all_indices_in_bounds, nth_In.
    now rewrite all_indices_length, Hnum. }
  assert (Hsw : forall o, in_bounds s' o ->
                  in_bounds (shape a) (swap_axes 0 k o)).
  { intros o Ho.
    rewrite <- (@swap_axes_involutive _ 0 k (shape a)) by assumption.
    apply in_bounds_swap; [|exact Ho].
    unfold s'. now rewrite swap_axes_length. }
  apply (Permutation_nth _ _ zero). cbv zeta.
  rewrite length_map, all_indices_length, Hnum, Hwf.
  split; [reflexivity|].
  exists (fun x => offset (shape a) (swap_axes 0 k (nth x (all_indices s') []))).
  split; [|split].
  - intros x Hx. apply offset_bound. auto.
  - intros x y Hx Hy H.
    apply offset_injective in H; auto.
    assert (Hlen : forall z, z < numel (shape a) ->
                     k < length (nth z (all_indices s') [])).
    { intros z Hz. specialize (Hin z Hz).
      apply in_bounds_spec in Hin as [-> _].
      unfold s'. now rewrite swap_axes_length. }
    assert (H' : nth x (all_indices s') [] = nth y (all_indices s') []).
    { rewrite <- (@swap_axes_involutive _ 0 k (nth x (all_indices s') [])),
              <- (@swap_axes_involutive _ 0 k (nth y (all_indices s') []))
        by auto.
      now rewrite H. }
    apply (proj1 (NoDup_nth (all_indices s') []) (all_indices_NoDup s'));
      rewrite ?all_indices_length, ?Hnum; auto.
  - intros x Hx.
    rewrite (nth_indep _ zero (at_index zero a (swap_axes 0 k [])))
      by (now rewrite length_map, all_indices_length, Hnum).
    now rewrite (map_nth (fun o => at_index zero a (swap_axes 0 k o))).
Qed.

(** X9: [transpose_sequence] rearranges and does nothing else: the shape
    of the result is a permutation of the shape of the input, its elements
    are a permutation of the elements of the input, and their number is
    the same. *)
Theorem transpose_sequence_permutes (a : tensor E) (seq_axis : Z) :
  wf a ->
  (0 <= seq_axis < Z.of_nat (rank a))%Z ->
  exists t,
    transpose_sequence zero a seq_axis = Returns t
    /\ Permutation (shape a) (shape t)
    /\ Permutation (data a) (data t)
    /\ numel (shape t) = numel (shape a).
Proof.
  intros Hwf Ha. rewrite transpose_sequence_value by assumption.
  eexists. split; [reflexivity|]. cbn [shape data].
  assert (Hk : Z.to_nat seq_axis < rank a) by lia.
  split; [|split].
  - now apply swap_axes_permutation.
  - now apply transposed_data_permutation.
  - symmetry. now apply numel_permutation, swap_axes_permutation.
Qed.

End TransposeMore.

(** ** [setup_sequence]: identity and exceptions *)

Section SequenceEdges.

Variable E : Type.
Variable call : string -> list (value E) -> value E + string.
Variable zero : E.

Lemma swap_axes_one {A} (d x y : A) (l : list A) :
  swap_axes d 1 (x :: y :: l) = y :: x :: l.
Proof.
  apply (nth_ext _ _ d d); [now rewrite swap_axes_length|].
  intros i Hi. rewrite swap_axes_length in Hi.
  rewrite nth_swap_axes by assumption.
  destruct i as [|[|i]]; reflexivity.
Qed.

(** X5: with no cell and a widget list of skipped entries only (the
    empty list included), [setup_sequence] returns its input, both without
    the transpositions and with [transpose_in] and [transpose_out] together,
    for a well-formed tensor whose scanned axis is not empty. *)
Theorem setup_sequence_identity (a : tensor E) (ws : list (value E))
        (init_state : option (value E)) :
  wf a -> forallb (@is_skipped E) ws = true ->
  (forall n s, shape a = n :: s -> 0 < n ->
     setup_sequence call zero a (VList ws) false false None init_state
     = Returns a)
  /\ (forall b n s, shape a = b :: n :: s -> 0 < n ->
        setup_sequence call zero a (VList ws) true true None init_state
        = Returns a).
Proof.
  intros Hwf Hws. split.
  - intros n s Hs Hn. eapply identity_map; eassumption.
  - intros b n s Hs Hn.
    destruct (@transpose_sequence_back E zero a 1%Z Hwf) as (t & Ht & Hst & Hwt & Hback).
    { unfold rank. rewrite Hs. cbn [length]. lia. }
    change (Z.to_nat 1) with 1 in Hst. rewrite Hs, swap_axes_one in Hst.
    assert (Hid : setup_sequence call zero t (VList ws) false false None
                                 init_state = Returns t)
      by (eapply identity_map; eassumption).
    unfold setup_sequence in *. rewrite Ht. cbn [bind] in *.
    apply bind_returns_inv in Hid as (y & Hy & Hret). injection Hret as ->.
    rewrite Hy. cbn [bind]. exact Hback.
Qed.

Lemma scan_loop_raises wl c xs : forall s0 i (e : exn E),
  i < length xs ->
  state_after call wl c s0 xs (S i) = Raises e ->
  scan_loop (scan_fn call wl c) s0 xs = Raises e.
Proof.
  induction xs as [|x xs IH]; intros s0 i e Hi H; [cbn in Hi; lia|].
  rewrite state_after_cons in H. cbn [scan_loop].
  destruct (scan_fn call wl c s0 x) as [a|e'] eqn:Hfn; cbn [bind] in *.
  - destruct i as [|i]; [discriminate|].
    rewrite (IH a i e); [reflexivity| cbn in Hi; lia | assumption].
  - now injection H as ->.
Qed.

(** X6: no partial result: when some step [i] of the recurrent scan
    raises, that is when [state_i] is an exception [e], [setup_sequence]
    raises [e], with or without [transpose_out]. *)
Theorem setup_sequence_step_exception (a : tensor E) (wl : value E) (c : cell)
        (t0 : tensor E) (tout : bool) (i : nat) (e : exn E) :
  shape a <> [] ->
  i < length (slices a) ->
  state_after call wl c (VTensor t0) (map (@VTensor E) (slices a)) (S i)
  = Raises e ->
  setup_sequence call zero a wl false tout (Some c) (Some (VTensor t0))
  = Raises e.
Proof.
  intros Hrank Hi H. unfold setup_sequence, tf_scan. cbn [bind].
  rewrite (unstack_nonscalar a Hrank). cbn [bind].
  rewrite (@scan_loop_raises wl c _ (VTensor t0) i e);
    [reflexivity|now rewrite length_map|assumption].
Qed.

End SequenceEdges.

(** ** [flatten] *)

Section FlattenFacts.

Variable E : Type.

Lemma flatten_value (x : tensor E) n rest :
  shape x = n :: rest -> 0 < n ->
  flatten x = Returns (mkTensor [n; numel rest] (data x)).
Proof.
  intros Hs Hn. unfold flatten, tf_reshape_rows. rewrite Hs. cbn [nth_error].
  replace (n =? 0) with false by (symmetry; apply Nat.eqb_neq; lia).
  cbn [numel fold_right]. fold (numel rest).
  rewrite (Nat.mul_comm n), Nat.Div0.mod_mul, Nat.eqb_refl.
  now rewrite Nat.div_mul by lia.
Qed.

Lemma flatten_returns_inv (x y : tensor E) :
  flatten x = Returns y ->
  exists n rest, shape x = n :: rest /\ 0 < n.
Proof.
  unfold flatten, tf_reshape_rows.
  destruct (shape x) as [|n rest]; cbn [nth_error]; [discriminate|].
  destruct n; [discriminate|]. intros _. exists (S n), rest. split; [reflexivity|lia].
Qed.

(** X10: [flatten] keeps the first axis and merges all the others: on a
    tensor of shape [n :: rest] with [0 < n] it returns the same elements,
    in the same order, under the shape [[n; numel rest]].  It returns
    exactly on such tensors (a scalar has no first axis, and an empty batch
    leaves the second size undetermined), and a result has as many elements
    as its shape says whenever the input has. *)
Theorem flatten_rows (x : tensor E) :
  (forall n rest, shape x = n :: rest -> 0 < n ->
     flatten x = Returns (mkTensor [n; numel rest] (data x)))
  /\ ((exists y, flatten x = Returns y) <->
      exists n rest, shape x = n :: rest /\ 0 < n)
  /\ (forall y, flatten x = Returns y -> wf x -> wf y).
Proof.
  split; [|split].
  - apply flatten_value.
  - split.
    + intros [y Hy]. eapply flatten_returns_inv, Hy.
    + intros (n & rest & Hs & Hn). eexists. eapply flatten_value; eassumption.
  - intros y Hy Hwf.
    destruct (flatten_returns_inv _ Hy) as (n & rest & Hs & Hn).
    rewrite (flatten_value _ Hs Hn) in Hy. injection Hy as <-.
    unfold wf in *. cbn [shape data numel fold_right].
    rewrite Hwf, Hs. cbn [numel fold_right]. fold (numel rest). lia.
Qed.

(** X11: [flatten] is idempotent: flattening a result of [flatten] returns
    it unchanged, and so does flattening any matrix with at least one
    row. *)
Theorem flatten_idempotent (x : tensor E) :
  (forall y, flatten x = Returns y -> flatten y = Returns y)
  /\ (forall n m, shape x = [n; m] -> 0 < n -> flatten x = Returns x).
Proof.
  assert (H2 : forall (z : tensor E) n m,
             shape z = [n; m] -> 0 < n -> flatten z = Returns z).
  { intros z n m Hs Hn. rewrite (flatten_value _ Hs Hn).
    cbn [numel fold_right]. rewrite Nat.mul_1_r.
    destruct z as [sh d]. cbn [shape data] in *. now subst. }
  split; [|exact (H2 x)].
  intros y Hy.
  destruct (flatten_returns_inv _ Hy) as (n & rest & Hs & Hn).
  rewrite (flatten_value _ Hs Hn) in Hy. injection Hy as <-.
  now apply (H2 _ n (numel rest)).
Qed.

End FlattenFacts.

(** ** [lrelu], [swish] and [random_gumbel] *)

Section ActivationFacts.

Import Activation.
Local Open Scope R_scope.

Lemma tmap_ext (f g : R -> R) (x : tensor R) :
  (forall v, f v = g v) -> tmap f x = tmap g x.
Proof. intros H. unfold tmap. f_equal. now apply map_ext. Qed.

Lemma tmap_id (f : R -> R) (x : tensor R) :
  (forall v, In v (data x) -> f v = v) -> tmap f x = x.
Proof.
  intros H. unfold tmap. destruct x as [s d]. cbn [shape data] in *. f_equal.
  rewrite <- (map_id d) at 2. now apply map_ext_in.
Qed.

(** X12: for a leak between 0 and 1, [lrelu] is the leaky rectifier: the
    identity on the non-negative elements and the slope [leak] on the
    negative ones.  For [leak = 1] it is the identity, and for a leak above
    1 the two roles are exchanged: the non-negative elements are the ones
    that get multiplied. *)
Theorem lrelu_leaky (x : tensor R) :
  (forall leak, 0 <= leak <= 1 -> lrelu x leak = tmap (leaky_relu leak) x)
  /\ lrelu x 1 = x
  /\ (forall leak, 1 <= leak ->
        lrelu x leak = tmap (fun v => if Rle_dec 0 v then leak * v else v) x).
Proof.
  split; [|split].
  - intros leak Hl. apply tmap_ext. intros v. unfold leaky_relu.
    destruct (Rle_dec 0 v).
    + apply Rmax_left. nra.
    + apply Rmax_right. nra.
  - apply tmap_id. intros v _. apply Rmax_left. lra.
  - intros leak Hl. apply tmap_ext. intros v.
    destruct (Rle_dec 0 v).
    + apply Rmax_right. nra.
    + apply Rmax_left. nra.
Qed.

(** X13: [lrelu] commutes with the multiplication by a non-negative
    constant: [lrelu(c * x, leak) = c * lrelu(x, leak)] for [0 <= c]. *)
Theorem lrelu_scale (x : tensor R) (leak c : R) :
  0 <= c ->
  lrelu (tmap (Rmult c) x) leak = tmap (Rmult c) (lrelu x leak).
Proof.
  intros Hc. unfold lrelu, tmap. cbn [shape data]. f_equal.
  rewrite !map_map. apply map_ext. intros v.
  rewrite <- Rmult_assoc, (Rmult_comm leak c), Rmult_assoc.
  now rewrite RmaxRmult.
Qed.

Lemma sigmoid_bounds v : 0 < sigmoid v < 1.
Proof.
  unfold sigmoid. pose proof (exp_pos (- v)) as He.
  split.
  - apply Rinv_0_lt_compat. lra.
  - rewrite <- Rinv_1 at 2. apply Rinv_lt_contravar; lra.
Qed.

(** X14: [swish] keeps the shape, each output element is
    [v / (1 + exp(-v))] for the input element [v] at the same position, and
    it lies between 0 and [v]: the output has the sign of the input and is
    never larger in magnitude. *)
Theorem swish_bounds (x : tensor R) :
  shape (swish x) = shape x
  /\ Forall2 (fun v s => s = v / (1 + exp (- v))
                         /\ (0 <= v -> 0 <= s <= v)
                         /\ (v <= 0 -> v <= s <= 0))
             (data x) (data (swish x)).
Proof.
  split; [reflexivity|]. unfold swish, tmap. cbn [data].
  induction (data x) as [|v d IH]; cbn [map]; constructor; [|exact IH].
  pose proof (sigmoid_bounds v) as [H0 H1].
  split; [|split].
  - unfold sigmoid, Rdiv. apply Rmult_comm.
  - intros Hv. nra.
  - intros Hv. nra.
Qed.

Lemma ln_neg u : 0 < u < 1 -> ln u < 0.
Proof. intros [H0 H1]. rewrite <- ln_1. now apply ln_increasing. Qed.

Lemma gumbel_inverse mu beta u :
  0 < u < 1 -> beta <> 0 -> gumbel_cdf mu beta (gumbel mu beta u) = u.
Proof.
  intros Hu Hb. unfold gumbel_cdf, gumbel.
  pose proof (ln_neg Hu) as Hln.
  replace (- ((mu + - ln (- ln u) * beta - mu) / beta)) with (ln (- ln u))
    by (field; assumption).
  rewrite exp_ln by lra. rewrite Ropp_involutive. apply exp_ln. lra.
Qed.

(** X15: [random_gumbel] is inverse-transform sampling for the Gumbel law
    of location [mu] and scale [beta]: for [beta <> 0] and draws strictly
    between 0 and 1, applying the Gumbel distribution function to every
    sample gives the uniform draws back. *)
Theorem random_gumbel_inverts (u : tensor R) (mu beta : R) :
  beta <> 0 ->
  Forall (fun v => 0 < v < 1) (data u) ->
  tmap (gumbel_cdf mu beta) (random_gumbel u mu beta) = u.
Proof.
  intros Hb Hu. unfold random_gumbel, tmap. cbn [shape data].
  destruct u as [s d]. cbn [shape data] in *. f_equal.
  rewrite map_map. rewrite <- (map_id d) at 2.
  apply map_ext_in. intros v Hv. apply gumbel_inverse; [|assumption].
  rewrite Forall_forall in Hu. auto.
Qed.

(** X16: the sample is monotone in the uniform draw: for draws
    [0 < u1 < u2 < 1] it is strictly increasing when [beta] is positive,
    strictly decreasing when [beta] is negative, and constantly [mu] when
    [beta] is zero. *)
Theorem gumbel_monotone (mu beta u1 u2 : R) :
  0 < u1 -> u1 < u2 -> u2 < 1 ->
  (0 < beta -> gumbel mu beta u1 < gumbel mu beta u2)
  /\ (beta < 0 -> gumbel mu beta u2 < gumbel mu beta u1)
  /\ (beta = 0 -> gumbel mu beta u1 = mu).
Proof.
  intros H1 H12 H2. unfold gumbel.
  assert (Hl1 : ln u1 < ln u2) by (apply ln_increasing; lra).
  assert (Hl2 : ln u2 < 0) by (apply ln_neg; lra).
  assert (Hll : ln (- ln u2) < ln (- ln u1)) by (apply ln_increasing; lra).
  split; [|split]; intros Hb.
  - nra.
  - nra.
  - subst. lra.
Qed.

End ActivationFacts.

(** ** [kl_normal]: non-negativity *)

Section KlMore.

Import Numeric.
Local Open Scope R_scope.

Lemma ln_le_minus_one y : 0 < y -> ln y <= y - 1.
Proof.
  intros Hy. pose proof (exp_ineq1_le (ln y)) as H.
  rewrite exp_ln in H by assumption. lra.
Qed.

Lemma Rsum_nonneg l : Forall (fun r => 0 <= r) l -> 0 <= Rsum l.
Proof.
  induction 1 as [|r l Hr _ IH]; cbn; [lra|]. unfold Rsum in IH. lra.
Qed.

Lemma Forall_map2 {A B C} (P : C -> Prop) (f : A -> B -> C) la lb :
  (forall a b, In a la -> In b lb -> P (f a b)) -> Forall P (map2 f la lb).
Proof.
  intros H. unfold map2. apply Forall_forall. intros c Hc.
  apply in_map_iff in Hc as ([a b] & <- & Hin).
  apply H; [eapply in_combine_l|eapply in_combine_r]; eassumption.
Qed.

Lemma map2_length {A B C} (f : A -> B -> C) la lb :
  length la = length lb -> length (map2 f la lb) = length la.
Proof.
  intros H. unfold map2. rewrite length_map, length_combine, H.
  apply Nat.min_id.
Qed.

Lemma map_map_map (f g : R -> R) (m : list (list R)) :
  map (map f) (map (map g) m) = map (map (fun x => f (g x))) m.
Proof. rewrite map_map. apply map_ext. intros r. apply map_map. Qed.

Lemma rows_general (mu1 v1 : R) var0 mu0 :
  map (Rmult (1 / 2))
      (map Rsum
           (map2 (map2 Rminus)
                 (map (map (fun x => x - 1))
                      (map2 (map2 Rplus)
                            (map (map (fun x => (x + e) / v1)) var0)
                            (map (map (fun x => (x - mu1) ^ 2 / v1)) mu0)))
                 (map (map ln) (map (map (fun x => (x + e) / v1)) var0))))
  = map2 (fun vrow mrow =>
            1 / 2 * Rsum (map2 (fun v m =>
                                  (v + e) / v1 + (m - mu1) ^ 2 / v1 - 1
                                  - ln ((v + e) / v1))
                               vrow mrow))
         var0 mu0.
Proof.
  rewrite map2_fused, !map_map2.
  apply map2_ext. intros vrow mrow. now rewrite map2_fused.
Qed.

Lemma ew2_scalars f x y : ew2 f (Scalar x) (Scalar y) = Returns (Scalar (f x y)).
Proof. reflexivity. Qed.

Lemma kl_else_closed (mu1 var1 : R) mu0 var0 :
  map (@length R) mu0 = map (@length R) var0 ->
  (v <- add (Matrix var0) (Scalar e) ;;
   kl <- kl_else (Matrix mu0) v (Scalar mu1) (Scalar var1) ;;
   s <- reduce_sum_1 kl ;;
   Returns (map (Rmult (1 / 2)) s))
  = Returns (kl_general_form mu1 var1 mu0 var0).
Proof.
  intros Hs. unfold kl_else, kl_general, add, sub, div, square, tf_log.
  rewrite ew2_matrix_scalar. cbn [bind ew1].
  rewrite ew2_scalars. cbn [bind ew1].
  rewrite !ew2_matrix_scalar. cbn [bind ew1].
  rewrite !ew2_matrix_scalar. cbn [bind ew1].
  rewrite !map_map_map.
  rewrite ew2_same_shape by (now rewrite !shape_map_map).
  cbn [bind ew1]. rewrite !ew2_matrix_scalar. cbn [bind ew1].
  rewrite ew2_same_shape.
  2:{ rewrite shape_map_map, shape_map2, !shape_map_map; auto.
      now rewrite !shape_map_map. }
  cbn [bind reduce_sum_1]. f_equal.
  rewrite <- (map_map_map ln (fun x => (x + e) / (var1 + e)) var0).
  apply (rows_general mu1 (var1 + e)).
Qed.

(** X17: on a matrix of means and a matrix of variances of the same row
    lengths, with a scalar target [(mu1, var1)], [kl_normal] returns one
    value per example and none of them is negative, as soon as the shifted
    variances [var0 + 1e-4] and [var1 + 1e-4] are positive.  This holds in
    both branches: for the default target and for any other. *)
Theorem kl_normal_nonnegative (mu0 var0 : list (list R)) (mu1 var1 : R) :
  map (@length R) mu0 = map (@length R) var0 ->
  Forall (Forall (fun v => 0 < v + e)) var0 ->
  0 < var1 + e ->
  exists r,
    kl_normal (Matrix mu0) (Matrix var0) (Scalar mu1) (Scalar var1) = Returns r
    /\ length r = length var0
    /\ Forall (fun k => 0 <= k) r.
Proof.
  intros Hs Hv Hv1.
  assert (Hl : length var0 = length mu0).
  { rewrite <- (length_map (@length R) var0), <- Hs. apply length_map. }
  destruct (host_eq (Scalar mu1) 0 && host_eq (Scalar var1) 1) eqn:Ht.
  - apply andb_true_iff in Ht as [Hm Hv0].
    apply host_eq_scalar in Hm, Hv0. subst mu1 var1.
    exists (kl_closed_form mu0 var0). split; [|split].
    + now apply kl_default_closed.
    + unfold kl_closed_form. now apply map2_length.
    + unfold kl_closed_form. apply Forall_map2. intros vrow mrow Hin _.
      assert (0 <= Rsum (map2 (fun v m => v + e + m ^ 2 - 1 - ln (v + e))
                              vrow mrow)); [|lra].
      apply Rsum_nonneg, Forall_map2. intros v m Hvin _.
      rewrite Forall_forall in Hv. specialize (Hv _ Hin).
      rewrite Forall_forall in Hv. specialize (Hv _ Hvin).
      pose proof (ln_le_minus_one Hv). pose proof (pow2_ge_0 m). lra.
  - exists (kl_general_form mu1 var1 mu0 var0). split; [|split].
    + unfold kl_normal. rewrite Ht. now apply kl_else_closed.
    + unfold kl_general_form. now apply map2_length.
    + unfold kl_general_form. apply Forall_map2. intros vrow mrow Hin _.
      match goal with |- 0 <= 1 / 2 * Rsum ?l => assert (0 <= Rsum l); [|lra] end.
      apply Rsum_nonneg, Forall_map2. intros v m Hvin _.
      rewrite Forall_forall in Hv. specialize (Hv _ Hin).
      rewrite Forall_forall in Hv. specialize (Hv _ Hvin).
      assert (Hq : 0 < (v + e) / (var1 + e)) by (now apply Rdiv_lt_0_compat).
      pose proof (ln_le_minus_one Hq).
      assert (0 <= (m - mu1) ^ 2 / (var1 + e)).
      { apply Rmult_le_pos; [apply pow2_ge_0|].
        apply Rlt_le, Rinv_0_lt_compat, Hv1. }
      lra.
Qed.

End KlMore.

(** ** [clip_gradient]: the norms and the direction *)

Section ClipMore.

Import Numeric.
Local Open Scope R_scope.

Variable V : Type.

Lemma Rsum_scale c l : Rsum (map (Rmult c) l) = c * Rsum l.
Proof.
  induction l as [|x l IH]; cbn; [lra|].
  unfold Rsum in *. rewrite IH. lra.
Qed.

Lemma sum_squares_nonneg g : 0 <= sum_squares g.
Proof.
  destruct g as [t|]; cbn; [|lra].
  induction (data t) as [|x l IH]; cbn; [lra|].
  unfold Rsum in IH. nra.
Qed.

Lemma sum_squares_scale c g : sum_squares (scale c g) = c * c * sum_squares g.
Proof.
  destruct g as [t|]; cbn [scale option_map sum_squares data]; [|lra].
  rewrite <- Rsum_scale, !map_map. f_equal. apply map_ext. intros x. lra.
Qed.

Lemma total_squares_nonneg (l : list gradient) : 0 <= Rsum (map sum_squares l).
Proof.
  induction l as [|g l IH]; cbn; [lra|].
  pose proof (sum_squares_nonneg g). unfold Rsum in IH. lra.
Qed.

Lemma global_norm_scale c (l : list gradient) :
  tf_global_norm (map (scale c) l) = Rabs c * tf_global_norm l.
Proof.
  unfold tf_global_norm. rewrite map_map.
  rewrite (map_ext _ (fun g => c * c * sum_squares g))
    by (intros g; apply sum_squares_scale).
  rewrite <- (map_map sum_squares (Rmult (c * c))), Rsum_scale.
  rewrite sqrt_mult; [|nra|apply total_squares_nonneg].
  f_equal. fold (Rsqr c). apply sqrt_Rsqr_abs.
Qed.

Lemma scale_one (g : gradient) : scale 1 g = g.
Proof.
  destruct g as [[s d]|]; cbn; [|reflexivity]. do 2 f_equal.
  rewrite <- (map_id d) at 2. apply map_ext. intros x. lra.
Qed.

Lemma clip_factor_bounds raw max_norm :
  0 < max_norm -> 0 < max_norm / Rmax raw max_norm <= 1.
Proof.
  intros Hm. pose proof (Rmax_r raw max_norm) as Hr.
  assert (0 < Rmax raw max_norm) by lra.
  split.
  - now apply Rdiv_lt_0_compat.
  - apply (Rmult_le_reg_r (Rmax raw max_norm)); [assumption|].
    unfold Rdiv. rewrite Rmult_assoc, Rinv_l by lra. lra.
Qed.

Lemma clip_gradient_result (pair_list : list (gradient * V)) max_norm :
  clip_gradient pair_list max_norm
  = (map (fun p =>
            (scale (max_norm / Rmax (tf_global_norm (map fst pair_list)) max_norm)
                   (fst p), snd p))
         pair_list,
     tf_global_norm (map fst pair_list),
     Rabs (max_norm / Rmax (tf_global_norm (map fst pair_list)) max_norm)
     * tf_global_norm (map fst pair_list)).
Proof.
  unfold clip_gradient, tf_clip_by_global_norm. cbv zeta.
  rewrite repair_scaled, global_norm_scale. reflexivity.
Qed.

(** X18: for a positive [max_norm], the second component of
    [clip_gradient] is the global norm of the gradients it was given, the
    third one is the minimum of that norm and [max_norm], and when the norm
    does not exceed [max_norm] the pair list is returned unchanged. *)
Theorem clip_gradient_norms (pair_list : list (gradient * V)) (max_norm : R) :
  0 < max_norm ->
  let raw := snd (fst (clip_gradient pair_list max_norm)) in
  let clipped := snd (clip_gradient pair_list max_norm) in
  raw = tf_global_norm (map fst pair_list)
  /\ clipped = Rmin raw max_norm
  /\ (raw <= max_norm ->
      fst (fst (clip_gradient pair_list max_norm)) = pair_list).
Proof.
  intros Hm. cbv zeta. rewrite clip_gradient_result. cbn [fst snd].
  set (raw := tf_global_norm (map fst pair_list)).
  assert (Hraw : 0 <= raw) by apply sqrt_pos.
  split; [reflexivity|].
  destruct (Rle_dec raw max_norm) as [Hle|Hgt].
  - rewrite Rmax_right by assumption.
    replace (max_norm / max_norm) with 1 by (field; lra).
    split.
    + rewrite Rabs_R1, Rmin_left by assumption. lra.
    + intros _. rewrite <- (map_id pair_list) at 2.
      apply map_ext. intros [g v]. cbn [fst snd]. now rewrite scale_one.
  - rewrite Rmax_left by lra.
    split; [|intros; lra].
    rewrite Rmin_right by lra.
    rewrite Rabs_pos_eq by (apply Rlt_le, Rdiv_lt_0_compat; lra).
    field. lra.
Qed.

(** X19: clipping only rescales: for a positive [max_norm] there is one
    factor [c] with [0 < c <= 1] such that every gradient of the result is
    the given one times [c], paired with the same variable; missing
    gradients stay missing and all shapes are kept. *)
Theorem clip_gradient_direction (pair_list : list (gradient * V)) (max_norm : R) :
  0 < max_norm ->
  exists c,
    0 < c <= 1
    /\ fst (fst (clip_gradient pair_list max_norm))
       = map (fun p => (scale c (fst p), snd p)) pair_list
    /\ map (fun p => option_map (@shape R) (fst p))
           (fst (fst (clip_gradient pair_list max_norm)))
       = map (fun p => option_map (@shape R) (fst p)) pair_list.
Proof.
  intros Hm. rewrite clip_gradient_result. cbn [fst snd].
  eexists. split; [apply clip_factor_bounds, Hm|]. split; [reflexivity|].
  rewrite map_map. apply map_ext. intros [[t|] v]; reflexivity.
Qed.

End ClipMore.

(** ** [one_hot]: integer and list indices *)

Section OneHotMore.

Variable E : Type.

Lemma py_index_mod len i :
  (- Z.of_nat len <= i < Z.of_nat len)%Z ->
  py_index len i = Some (Z.to_nat (i mod Z.of_nat len)).
Proof.
  intros H. destruct (Z_lt_le_dec i 0) as [Hneg|Hpos].
  - rewrite py_index_negative by lia. do 2 f_equal.
    apply (Z.mod_unique i (Z.of_nat len) (-1)); lia.
  - rewrite py_index_nonnegative by lia. now rewrite Z.mod_small by lia.
Qed.

Lemma Zsum_zeros n : Zsum (repeat 0%Z n) = 0%Z.
Proof. induction n; cbn; [reflexivity|]. unfold Zsum in IHn. lia. Qed.

Lemma Zsum_one_hot n : forall k,
  k < n -> Zsum (list_set (repeat 0%Z n) k 1%Z) = 1%Z.
Proof.
  induction n as [|n IH]; intros k Hk; [lia|].
  destruct k as [|k]; cbn [repeat list_set Zsum fold_right].
  - fold (Zsum (repeat 0%Z n)). rewrite Zsum_zeros. reflexivity.
  - fold (Zsum (list_set (repeat 0%Z n) k 1%Z)). rewrite IH by lia. reflexivity.
Qed.

Lemma one_hot_int_value (index dims : Z) :
  (- dims <= index < dims)%Z ->
  one_hot (E:=E) (VInt index) dims
  = Returns (mkTensor [Z.to_nat dims]
               (list_set (repeat 0%Z (Z.to_nat dims))
                         (Z.to_nat (index mod dims)) 1%Z)).
Proof.
  intros H. unfold one_hot, py_setitem, np_zeros.
  replace (dims <? 0)%Z with false by (symmetry; apply Z.ltb_ge; lia).
  rewrite repeat_length, py_index_mod by (rewrite Z2Nat.id; lia).
  now rewrite Z2Nat.id by lia.
Qed.

Lemma one_hot_int_returns_inv (index dims : Z) (t : tensor Z) :
  one_hot (E:=E) (VInt index) dims = Returns t -> (- dims <= index < dims)%Z.
Proof.
  unfold one_hot, py_setitem, np_zeros.
  destruct (dims <? 0)%Z eqn:Hd; [discriminate|]. apply Z.ltb_ge in Hd.
  rewrite repeat_length.
  destruct (py_index (Z.to_nat dims) index) as [k|] eqn:Hk; [|discriminate].
  intros _. destruct (Z_lt_le_dec index (- dims)); [|destruct (Z_lt_le_dec index dims)];
    try lia; rewrite py_index_outside in Hk by (rewrite Z2Nat.id; lia);
    discriminate.
Qed.

(** X20: for an integer index, [one_hot] returns exactly when
    [-dims <= index < dims]; the result is then a vector of length [dims]
    with a 1 at position [index mod dims] and 0 elsewhere, so its entries
    sum to 1. *)
Theorem one_hot_integer_index (index dims : Z) :
  ((exists t, one_hot (E:=E) (VInt index) dims = Returns t) <->
   (- dims <= index < dims)%Z)
  /\ ((- dims <= index < dims)%Z ->
      exists ret,
        one_hot (E:=E) (VInt index) dims
        = Returns (mkTensor [Z.to_nat dims] ret)
        /\ length ret = Z.to_nat dims
        /\ (forall k, k < Z.to_nat dims ->
              nth k ret 0%Z
              = if k =? Z.to_nat (index mod dims) then 1%Z else 0%Z)
        /\ Zsum ret = 1%Z).
Proof.
  split.
  - split.
    + intros [t Ht]. eapply one_hot_int_returns_inv, Ht.
    + intros H. eexists. now apply one_hot_int_value.
  - intros H. eexists. split; [now apply one_hot_int_value|].
    assert (Hk : Z.to_nat (index mod dims) < Z.to_nat dims).
    { pose proof (Z.mod_pos_bound index dims ltac:(lia)). lia. }
    split; [|split].
    + now rewrite list_set_length, repeat_length.
    + intros k Hlt. rewrite nth_list_set by (now rewrite repeat_length).
      destruct (k =? _); [reflexivity|apply nth_repeat].
    + now apply Zsum_one_hot.
Qed.

Lemma mapM_spec {X A B} (f : A -> outcome X B) l : forall rs,
  mapM f l = Returns rs <-> Forall2 (fun a r => f a = Returns r) l rs.
Proof.
  induction l as [|a l IH]; intros rs; cbn [mapM].
  - split; [intros H; injection H as <-; constructor|].
    intros H; inversion H; reflexivity.
  - split.
    + destruct (f a) as [b|] eqn:Hb; [|discriminate].
      destruct (mapM f l) as [bs|] eqn:Hbs; [|discriminate].
      intros H. injection H as <-. constructor; [assumption|]. now apply IH.
    + intros H. inversion H as [|? b ? bs Ha Hrest]; subst.
      rewrite Ha. apply IH in Hrest. now rewrite Hrest.
Qed.

Lemma one_hot_int_row (i dims : Z) (r : list Z) :
  (0 <= dims)%Z ->
  one_hot (E:=E) (VInt i) dims = Returns (mkTensor [Z.to_nat dims] r) <->
  one_hot_row (E:=E) (Z.to_nat dims) (VInt i) = Returns r.
Proof.
  intros Hd. unfold one_hot, one_hot_row.
  replace (dims <? 0)%Z with false by (symmetry; apply Z.ltb_ge; lia).
  destruct (py_setitem E (np_zeros (Z.to_nat dims)) i 1%Z) as [ret|]; cbn [bind].
  - split; intros H; injection H as <-; reflexivity.
  - split; discriminate.
Qed.

Lemma Zsum_app l1 l2 : Zsum (l1 ++ l2) = (Zsum l1 + Zsum l2)%Z.
Proof. induction l1; cbn; [reflexivity|]. unfold Zsum in *. lia. Qed.

Lemma one_hot_list_value (l : list (value E)) (dims : Z) :
  (0 <= dims)%Z ->
  one_hot (VList l) dims
  = (rows <- mapM (one_hot_row (Z.to_nat dims)) l ;;
     Returns (mkTensor [length l; Z.to_nat dims] (concat rows))).
Proof.
  intros Hd. unfold one_hot.
  now replace (dims <? 0)%Z with false by (symmetry; apply Z.ltb_ge; lia).
Qed.

Lemma one_hot_rows_singles (indices : list Z) (dims : Z) :
  (0 <= dims)%Z ->
  forall rows,
    Forall2 (fun a r => one_hot_row (E:=E) (Z.to_nat dims) a = Returns r)
            (map (@VInt E) indices) rows
    <-> Forall2 (fun i r => one_hot (E:=E) (VInt i) dims
                            = Returns (mkTensor [Z.to_nat dims] r))
                indices rows.
Proof.
  intros Hd. induction indices as [|i l IH]; intros rows; cbn [map].
  - split; intros H; inversion H; constructor.
  - split; intros H; inversion H; subst; constructor;
      try (now apply IH); now apply one_hot_int_row.
Qed.

(** X21: for a list of integers and [0 <= dims], a tuple and a list give
    the same result; [one_hot] returns exactly when it returns on every
    index alone, and the result is then the matrix whose rows are these
    one-hot vectors, in order: [len(index)] rows of [dims] entries, summing
    to [len(index)]. *)
Theorem one_hot_index_list (indices : list Z) (dims : Z) :
  (0 <= dims)%Z ->
  one_hot (E:=E) (VTuple (map (@VInt E) indices)) dims
  = one_hot (VList (map (@VInt E) indices)) dims
  /\ (forall t,
        one_hot (E:=E) (VList (map (@VInt E) indices)) dims = Returns t <->
        exists rows,
          Forall2 (fun i r => one_hot (E:=E) (VInt i) dims
                              = Returns (mkTensor [Z.to_nat dims] r))
                  indices rows
          /\ t = mkTensor [length indices; Z.to_nat dims] (concat rows))
  /\ (forall t,
        one_hot (E:=E) (VList (map (@VInt E) indices)) dims = Returns t ->
        wf t /\ Zsum (data t) = Z.of_nat (length indices)).
Proof.
  intros Hd.
  assert (Hchar : forall t,
            one_hot (E:=E) (VList (map (@VInt E) indices)) dims = Returns t <->
            exists rows,
              Forall2 (fun i r => one_hot (E:=E) (VInt i) dims
                                  = Returns (mkTensor [Z.to_nat dims] r))
                      indices rows
              /\ t = mkTensor [length indices; Z.to_nat dims] (concat rows)).
  { intros t. rewrite one_hot_list_value by assumption.
    rewrite length_map. split.
    - intros H. apply bind_returns_inv in H as (rows & Hrows & H).
      injection H as <-. exists rows. split; [|reflexivity].
      apply mapM_spec in Hrows. now apply one_hot_rows_singles.
    - intros (rows & Hrows & ->).
      apply one_hot_rows_singles, mapM_spec in Hrows; [|assumption].
      now rewrite Hrows. }
  split; [reflexivity|]. split; [exact Hchar|].
  intros t Ht. apply Hchar in Ht as (rows & Hrows & ->).
  unfold wf. cbn [shape data numel fold_right].
  clear Hchar. induction Hrows as [|i r l rows Hi _ IH].
  - split; reflexivity.
  - destruct IH as [IHw IHs]. cbn [length concat].
    assert (Hin : (- dims <= i < dims)%Z)
      by (eapply one_hot_int_returns_inv, Hi).
    rewrite (one_hot_int_value Hin) in Hi. injection Hi as <-.
    assert (Hk : Z.to_nat (i mod dims) < Z.to_nat dims).
    { pose proof (Z.mod_pos_bound i dims ltac:(lia)). lia. }
    split.
    + rewrite length_app, IHw, list_set_length, repeat_length. lia.
    + rewrite Zsum_app, IHs, Zsum_one_hot by assumption. lia.
Qed.

End OneHotMore.

(** ** [print_progress] *)

Section ProgressFacts.

Import Progress.
Local Open Scope Z_scope.

Lemma true_divide_fraction (i n : Z) :
  0 < n -> 0 <= i <= n -> true_divide i n = Returns tt.
Proof.
  intros Hn Hi. unfold true_divide.
  replace (n =? 0) with false by (symmetry; apply Z.eqb_neq; lia).
  assert (Hl : 1 < float_limit) by reflexivity.
  replace (Z.abs n * float_limit <=? Z.abs i) with false; [reflexivity|].
  symmetry. apply Z.leb_gt. nia.
Qed.

Lemma print_progress_other (i n : Z) msg k :
  k <> 0 -> 0 <= i < n ->
  print_progress i n msg k
  = Returns (if i mod k =? 0 then [ProgressLine msg i n] else []).
Proof.
  intros Hk Hi. unfold print_progress.
  replace (k =? 0) with false by (symmetry; apply Z.eqb_neq; lia).
  replace (i =? n) with false by (symmetry; apply Z.eqb_neq; lia).
  rewrite orb_false_r, true_divide_fraction by lia.
  destruct (i mod k =? 0); cbn [bind]; now rewrite app_nil_r.
Qed.

Lemma print_progress_last (n : Z) msg k :
  k <> 0 -> 0 < n ->
  print_progress n n msg k = Returns [ProgressLine msg n n; Newline].
Proof.
  intros Hk Hn. unfold print_progress.
  replace (k =? 0) with false by (symmetry; apply Z.eqb_neq; lia).
  rewrite Z.eqb_refl, orb_true_r, true_divide_fraction by lia.
  reflexivity.
Qed.

Lemma progress_run_app cs1 cs2 n msg k :
  progress_run (cs1 ++ cs2) n msg k
  = (o1 <- progress_run cs1 n msg k ;;
     o2 <- progress_run cs2 n msg k ;;
     Returns (o1 ++ o2)).
Proof.
  induction cs1 as [|i cs1 IH]; cbn [app progress_run bind].
  - now rewrite bind_returns_r.
  - destruct (print_progress i n msg k) as [o|]; cbn [bind]; [|reflexivity].
    rewrite IH. destruct (progress_run cs1 n msg k); cbn [bind]; [|reflexivity].
    destruct (progress_run cs2 n msg k); cbn [bind]; [|reflexivity].
    now rewrite app_assoc.
Qed.

Lemma progress_run_before cs n msg k :
  k <> 0 -> Forall (fun i => 0 <= i < n) cs ->
  progress_run cs n msg k
  = Returns (map (fun i => ProgressLine msg i n)
                 (filter (fun i => i mod k =? 0) cs)).
Proof.
  intros Hk. induction 1 as [|i cs Hi _ IH]; [reflexivity|].
  cbn [progress_run filter].
  rewrite print_progress_other, IH by assumption. cbn [bind].
  destruct (i mod k =? 0); reflexivity.
Qed.

(** X22: a loop that calls [print_progress] on counters [cs] between 0
    and [num_loops - 1] and then on [num_loops], with a non-zero interval,
    raises nothing and writes one progress line for each counter that the
    interval divides, in order, then the line of the last counter (whether
    or not the interval divides it), then the only newline of the run. *)
Theorem progress_run_complete (cs : list Z) (n : Z) (msg : string) (k : Z) :
  k <> 0 -> 0 < n -> Forall (fun i => 0 <= i < n) cs ->
  exists lines,
    progress_run (cs ++ [n]) n msg k
    = Returns (lines ++ [ProgressLine msg n n; Newline])
    /\ lines = map (fun i => ProgressLine msg i n)
                   (filter (fun i => i mod k =? 0) cs)
    /\ filter is_newline (lines ++ [ProgressLine msg n n; Newline]) = [Newline].
Proof.
  intros Hk Hn Hcs. eexists. split; [|split; [reflexivity|]].
  - rewrite progress_run_app, progress_run_before by assumption.
    cbn [bind progress_run]. rewrite print_progress_last by assumption.
    cbn [bind]. now rewrite app_nil_r.
  - rewrite filter_app. cbn [filter is_newline].
    induction (filter (fun i => i mod k =? 0) cs) as [|i l IH];
      [reflexivity|exact IH].
Qed.

Lemma print_progress_cases (i n : Z) (msg : string) (k : Z) :
  k <> 0 ->
  print_progress i n msg k
  = if i =? n then
      (_ <- true_divide i n ;; Returns [ProgressLine msg i n; Newline])
    else if i mod k =? 0 then
      (_ <- true_divide i n ;; Returns [ProgressLine msg i n])
    else Returns [].
Proof.
  intros Hk. unfold print_progress.
  replace (k =? 0) with false by (symmetry; apply Z.eqb_neq; lia).
  destruct (i =? n), (i mod k =? 0); cbn [orb bind app];
    try reflexivity;
    destruct (true_divide i n) as [[]|]; reflexivity.
Qed.

(** X23: a call of [print_progress] raises [ZeroDivisionError] exactly
    when the interval is zero, or [num_loops] is zero and the interval
    divides the counter; it raises [OverflowError] only for a counter that
    the interval divides and whose quotient by [num_loops] is out of the
    range of a float.  When it returns, it has written the newline exactly
    if the counter equals [num_loops], the progress line exactly if the
    interval divides the counter or the counter equals [num_loops], and
    nothing else, each at most once. *)
Theorem print_progress_outcome (i n : Z) (msg : string) (k : Z) :
  (print_progress i n msg k = Raises ZeroDivisionError <->
   k = 0 \/ (n = 0 /\ i mod k = 0))
  /\ (print_progress i n msg k = Raises OverflowError <->
      k <> 0 /\ n <> 0 /\ i mod k = 0 /\ Z.abs n * float_limit <= Z.abs i)
  /\ (forall out, print_progress i n msg k = Returns out ->
        (In Newline out <-> i = n)
        /\ (In (ProgressLine msg i n) out <-> i mod k = 0 \/ i = n)
        /\ (forall o, In o out -> o = ProgressLine msg i n \/ o = Newline)
        /\ NoDup out).
Proof.
  assert (Hnd1 : forall o : output, NoDup [o]).
  { intros o. constructor; [intros []|constructor]. }
  assert (Hnd2 : NoDup [ProgressLine msg i n; Newline]).
  { constructor; [|apply Hnd1]. intros [H|[]]; discriminate. }
  assert (Hl : 1 < float_limit) by reflexivity.
  destruct (Z.eq_dec k 0) as [Hk|Hk].
  - unfold print_progress. subst k. cbn [Z.eqb].
    split; [split; auto|]. split; [|discriminate].
    split; [discriminate|]. intros [H _]. now contradiction H.
  - rewrite print_progress_cases by assumption. unfold true_divide.
    destruct (Z.eqb_spec i n) as [Hi|Hi];
      destruct (Z.eqb_spec (i mod k) 0) as [Hm|Hm];
      destruct (Z.eqb_spec n 0) as [Hn|Hn];
      destruct (Z.leb_spec (Z.abs n * float_limit) (Z.abs i)) as [Ho|Ho];
      cbn [bind];
      try (exfalso; subst; rewrite Z.mod_0_l in Hm; [now apply Hm|assumption]);
      try (exfalso; nia);
      (split; [split; [try discriminate; auto | intros [?|[? ?]]; try contradiction; reflexivity]|]);
      (split; [split; [try discriminate; auto | intros (_ & ? & ? & ?); try contradiction; try lia; reflexivity]|]);
      intros out Hout; try discriminate Hout; injection Hout as <-; cbn [In];
      (split; [|split; [|split]]);
      try apply Hnd1; try apply Hnd2; try apply NoDup_nil;
      try (intros o [H|[H|[]]]; subst o; auto; fail);
      try (intros o [H|[]]; subst o; auto; fail);
      try (intros o []; fail);
      try (split; [intros [H|[H|[]]]; try discriminate H; auto
                  |intros; auto; tauto]; fail);
      try (split; [intros [H|[]]; try discriminate H; auto
                  |intros; auto; tauto]; fail);
      try (split; [intros []|intros; tauto]; fail).
Qed.

End ProgressFacts.

(** * The theorems on the example objects *)

Section Witnesses.

Import Example.

Lemma setup_is_fold_witness :
  setup call (VInt 3) (VList [VFn "f"; VTuple [VFn "g"; VInt 2]; VNone])
  = fold_widgets call (VInt 3)
      [Transform "f"; TransformWith (VFn "g") [VInt 2]; Skip].
Proof.
  apply (proj1 (@setup_is_fold Z call (VInt 3))). reflexivity.
Defined.

Lemma setup_value_error_witness :
  setup call (VInt 3) (VList [VFn "f"; VInt 7; VNone])
  = Raises (NotCallable (VInt 7)).
Proof.
  apply (proj2 (proj1 (@setup_value_error Z call (VInt 3)
                         (VList [VFn "f"; VInt 7; VNone]) (VInt 7)))).
  exists [VFn "f"], [VNone], (VInt 4). repeat split; reflexivity.
Defined.

Lemma one_hot_negative_index_witness :
  (exists ret,
      one_hot (E:=Z) (VInt (-1)) 3 = Returns (mkTensor [3] ret)
      /\ length ret = 3 /\ nth 2 ret 0%Z = 1%Z)
  /\ one_hot (E:=Z) (VInt 5) 3 = Raises IndexError.
Proof.
  split.
  - destruct (proj1 (one_hot_negative_index Z) (-1)%Z 3%Z
                ltac:(lia) ltac:(lia)) as (ret & H1 & H2 & H3).
    exists ret. split; [exact H1|]. split; [exact H2|].
    exact (H3 2 ltac:(simpl; lia)).
  - apply (proj1 (proj2 (one_hot_negative_index Z))); lia.
Defined.

Lemma transpose_sequence_involutive_witness :
  exists t,
    transpose_sequence 0%Z t23 1 = Returns t
    /\ shape t = [3; 2]
    /\ transpose_sequence 0%Z t 1 = Returns t23.
Proof.
  destruct (@transpose_sequence_involutive Z 0%Z t23 1%Z)
    as (t & H1 & H2 & _ & _ & H5).
  - reflexivity.
  - simpl. lia.
  - exists t. split; [exact H1|]. split; [exact H2|exact H5].
Defined.

Lemma setup_sequence_is_scan_witness :
  setup_sequence call 0%Z seq3 (VList []) false false (Some the_cell)
                 (Some (VTensor (tf_zeros 0%Z [1; 2])))
  = Returns (mkTensor [3; 1; 2] [1; 2; 4; 6; 9; 12]%Z).
Proof.
  apply (proj1 (@setup_sequence_is_scan Z call 0%Z seq3 (VList []) the_cell
                  ltac:(discriminate))).
  exists [mkTensor [1; 2] [1; 2]%Z; mkTensor [1; 2] [4; 6]%Z;
          mkTensor [1; 2] [9; 12]%Z].
  split; [reflexivity|]. split; [|split; [|reflexivity]].
  - intros [|[|[|i]]] Hi; try reflexivity. simpl in Hi. lia.
  - repeat constructor.
Defined.

Import Numeric.
Local Open Scope R_scope.

Lemma kl_normal_standard_target_witness :
  kl_normal (Matrix [[0; 0]; [1; 2]]) (Matrix [[1; 1]; [3; 4]])
            default_mu1 default_var1
  = Returns (kl_closed_form [[0; 0]; [1; 2]] [[1; 1]; [3; 4]]).
Proof.
  apply (proj1 (proj2 kl_normal_standard_target)). reflexivity.
Defined.

Lemma kl_special_branch_refines_general_witness :
  kl_normal (Matrix [[0]]) (Matrix [[1]]) (Matrix [[0]]) (Scalar 1)
  = (v <- add (Matrix [[1]]) (Scalar e) ;;
     kl <- kl_else (Matrix [[0]]) v (Matrix [[0]]) (Scalar 1) ;;
     s <- reduce_sum_1 kl ;;
     Returns (map (Rmult (1 / 2)) s)).
Proof.
  apply (proj1 (proj2 (proj2 (proj2 (proj2
           kl_special_branch_refines_general))))).
  left. exists [[0]]. reflexivity.
Defined.

Lemma clip_gradient_keeps_variables_witness :
  exists g,
    nth_error
      (fst (fst (clip_gradient
                   [(Some (mkTensor [2%nat] [3; 4]), "w"%string);
                    (None, "b"%string)] 1)))
      1
    = Some (g, "b"%string).
Proof.
  apply (proj1 (proj2 (proj2
           (clip_gradient_keeps_variables
              [(Some (mkTensor [2%nat] [3; 4]), "w"%string); (None, "b"%string)]
              1)))
           1%nat (None, "b"%string)).
  reflexivity.
Defined.

End Witnesses.

(** * The further properties on the example objects *)

Section FurtherWitnesses.

Import Example.

Lemma setup_stops_at_exception_witness :
  setup call (VInt 1) (VList ([VFn "f"] ++ VInt 5 :: [VFn "f"]))
  = Raises (NotCallable (VInt 5)).
Proof.
  apply (@setup_stops_at_exception Z call (VInt 1) (VInt 2)); reflexivity.
Defined.


Lemma setup_sequence_identity_witness :
  setup_sequence call 0%Z seq3 (VList [VNone; VTuple []]) false false None None
  = Returns seq3
  /\ setup_sequence call 0%Z seq3 (VList [VNone; VTuple []]) true true None None
     = Returns seq3.
Proof.
  destruct (@setup_sequence_identity Z call 0%Z seq3 [VNone; VTuple []] None)
    as [H1 H2]; [reflexivity|reflexivity|].
  split.
  - apply (H1 3 [1; 2]); [reflexivity|lia].
  - apply (H2 3 1 [2]); [reflexivity|lia].
Defined.

Lemma setup_sequence_step_exception_witness :
  setup_sequence call 0%Z seq3 (VList [VInt 7]) false true (Some the_cell)
                 (Some (VTensor (tf_zeros 0%Z [1; 2])))
  = Raises (NotCallable (VInt 7)).
Proof.
  apply (@setup_sequence_step_exception Z call 0%Z seq3 (VList [VInt 7])
           the_cell (tf_zeros 0%Z [1; 2]) true 0).
  - discriminate.
  - simpl. lia.
  - reflexivity.
Defined.

Lemma transpose_sequence_index_error_witness :
  transpose_sequence 0%Z t23 2 = Raises IndexError.
Proof.
  apply (@transpose_sequence_index_error Z 0%Z t23 2). simpl. lia.
Defined.

Lemma transpose_sequence_trivial_axis_witness :
  transpose_sequence 0%Z t23 (-2) = Returns t23.
Proof.
  apply (@transpose_sequence_trivial_axis Z 0%Z t23 (-2)%Z).
  - reflexivity.
  - unfold rank, t23. simpl. lia.
  - right. reflexivity.
Defined.

Lemma transpose_sequence_permutes_witness :
  exists t,
    transpose_sequence 0%Z t23 1 = Returns t
    /\ Permutation (shape t23) (shape t)
    /\ Permutation (data t23) (data t)
    /\ numel (shape t) = numel (shape t23).
Proof.
  apply (@transpose_sequence_permutes Z 0%Z t23 1%Z).
  - reflexivity.
  - unfold rank, t23. simpl. lia.
Defined.

Lemma flatten_rows_witness :
  flatten seq3 = Returns (mkTensor [3; 2] [1; 2; 3; 4; 5; 6]%Z).
Proof.
  apply (proj1 (flatten_rows seq3) 3 [1; 2]); [reflexivity|lia].
Defined.

Lemma flatten_idempotent_witness :
  flatten (mkTensor [3; 2] [1; 2; 3; 4; 5; 6]%Z)
  = Returns (mkTensor [3; 2] [1; 2; 3; 4; 5; 6]%Z).
Proof.
  apply (proj1 (flatten_idempotent seq3)). reflexivity.
Defined.

Lemma one_hot_integer_index_witness :
  exists ret,
    one_hot (E:=Z) (VInt (-3)) 4 = Returns (mkTensor [4] ret)
    /\ length ret = 4
    /\ nth 1 ret 0%Z = 1%Z
    /\ Zsum ret = 1%Z.
Proof.
  destruct (proj2 (one_hot_integer_index Z (-3) 4) ltac:(lia))
    as (ret & H1 & H2 & H3 & H4).
  exists ret. split; [exact H1|]. split; [exact H2|]. split; [|exact H4].
  exact (H3 1 ltac:(simpl; lia)).
Defined.

Lemma one_hot_index_list_witness :
  one_hot (E:=Z) (VTuple (map (@VInt Z) [0; 2; -1]%Z)) 3
  = one_hot (VList (map (@VInt Z) [0; 2; -1]%Z)) 3
  /\ (forall t,
        one_hot (E:=Z) (VList (map (@VInt Z) [0; 2; -1]%Z)) 3 = Returns t ->
        wf t /\ Zsum (data t) = 3%Z).
Proof.
  destruct (@one_hot_index_list Z [0; 2; -1]%Z 3%Z ltac:(lia)) as (H1 & _ & H3).
  split; [exact H1|exact H3].
Defined.

Lemma progress_run_complete_witness :
  exists lines,
    Progress.progress_run ([1; 2; 3] ++ [4])%Z 4 "Processing"%string 2
    = Returns (lines ++ [Progress.ProgressLine "Processing"%string 4 4; Progress.Newline])
    /\ lines = map (fun i => Progress.ProgressLine "Processing"%string i 4)
                   (filter (fun i => (i mod 2 =? 0)%Z) [1; 2; 3]%Z)
    /\ filter Progress.is_newline
              (lines ++ [Progress.ProgressLine "Processing"%string 4 4; Progress.Newline])
       = [Progress.Newline].
Proof.
  apply (@progress_run_complete [1; 2; 3]%Z 4%Z "Processing"%string 2%Z).
  - lia.
  - lia.
  - repeat constructor; lia.
Defined.

Lemma print_progress_outcome_witness :
  Progress.print_progress 2000 0 "Processing"%string 1000
  = Raises Progress.ZeroDivisionError.
Proof.
  apply (proj2 (proj1 (print_progress_outcome 2000 0 "Processing"%string 1000))).
  right. split; reflexivity.
Defined.

Import Activation.
Import Numeric.
Local Open Scope R_scope.

Lemma lrelu_leaky_witness :
  lrelu (mkTensor [2%nat] [3; -4]) (1 / 100)
  = tmap (leaky_relu (1 / 100)) (mkTensor [2%nat] [3; -4]).
Proof.
  apply (proj1 (lrelu_leaky (mkTensor [2%nat] [3; -4]))). lra.
Defined.

Lemma lrelu_scale_witness :
  lrelu (tmap (Rmult 2) (mkTensor [2%nat] [3; -4])) (1 / 100)
  = tmap (Rmult 2) (lrelu (mkTensor [2%nat] [3; -4]) (1 / 100)).
Proof.
  apply lrelu_scale. lra.
Defined.

Lemma random_gumbel_inverts_witness :
  tmap (gumbel_cdf 0 1) (random_gumbel (mkTensor [2%nat] [1 / 2; 1 / 4]) 0 1)
  = mkTensor [2%nat] [1 / 2; 1 / 4].
Proof.
  apply random_gumbel_inverts.
  - lra.
  - repeat constructor; simpl; lra.
Defined.

Lemma gumbel_monotone_witness :
  gumbel 0 1 (1 / 4) < gumbel 0 1 (1 / 2).
Proof.
  apply (proj1 (@gumbel_monotone 0 1 (1 / 4) (1 / 2)
                  ltac:(lra) ltac:(lra) ltac:(lra))).
  lra.
Defined.

Lemma kl_normal_nonnegative_witness :
  exists r,
    kl_normal (Matrix [[0; 0]; [1; 2]]) (Matrix [[1; 1]; [3; 4]])
              (Scalar 1) (Scalar 2)
    = Returns r
    /\ length r = 2%nat
    /\ Forall (fun k => 0 <= k) r.
Proof.
  apply (@kl_normal_nonnegative [[0; 0]; [1; 2]] [[1; 1]; [3; 4]] 1 2).
  - reflexivity.
  - unfold e. repeat constructor; lra.
  - unfold e. lra.
Defined.

Lemma clip_gradient_norms_witness :
  snd (clip_gradient [(Some (mkTensor [2%nat] [3; 4]), "w"%string);
                      (None, "b"%string)] 1)
  = Rmin (snd (fst (clip_gradient
                      [(Some (mkTensor [2%nat] [3; 4]), "w"%string);
                       (None, "b"%string)] 1))) 1.
Proof.
  apply (proj1 (proj2
           (@clip_gradient_norms string
              [(Some (mkTensor [2%nat] [3; 4]), "w"%string); (None, "b"%string)]
              1 ltac:(lra)))).
Defined.

Lemma clip_gradient_direction_witness :
  exists c,
    0 < c <= 1
    /\ fst (fst (clip_gradient
                   [(Some (mkTensor [2%nat] [3; 4]), "w"%string);
                    (None, "b"%string)] 1))
       = map (fun p => (scale c (fst p), snd p))
             [(Some (mkTensor [2%nat] [3; 4]), "w"%string); (None, "b"%string)]
    /\ map (fun p => option_map (@shape R) (fst p))
           (fst (fst (clip_gradient
                        [(Some (mkTensor [2%nat] [3; 4]), "w"%string);
                         (None, "b"%string)] 1)))
       = map (fun p => option_map (@shape R) (fst p))
             [(Some (mkTensor [2%nat] [3; 4]), "w"%string); (None, "b"%string)].
Proof.
  apply clip_gradient_direction. lra.
Defined.

End FurtherWitnesses.
